(** * call_center.py: a shallow embedding of the call-centre dispatcher

    The Python program keeps three kinds of mutable objects that refer to one
    another: [Call]s, [Employee]s (of the classes Operator, Supervisor and
    Director) and one [CallCenter].  An employee points to the call it holds
    and a call points back to the employee that took it, so the objects live
    in a store and are named by references; every attribute assignment of the
    source is an update of the store.  Methods are computations in a state
    and exception monad in which, as in Python, the store survives a raised
    exception. *)

From stdpp Require Import base option list strings.
From Stdlib Require Import ZArith Lia.


(** ** Enumerations *)

(** [class Rank(Enum)] with its values. *)
Inductive Rank := OPERATOR | SUPERVISOR | DIRECTOR.

Definition Rank_value (r : Rank) : Z :=
  match r with OPERATOR => 0 | SUPERVISOR => 1 | DIRECTOR => 2 end%Z.

(** [class CallState(Enum)] with its values. *)
Inductive CallState := READY | IN_PROGRESS | COMPLETE.

Definition CallState_value (s : CallState) : Z :=
  match s with READY => 0 | IN_PROGRESS => 1 | COMPLETE => 2 end%Z.

#[global] Instance Rank_eq_dec : EqDecision Rank.
Proof. solve_decision. Defined.
#[global] Instance CallState_eq_dec : EqDecision CallState.
Proof. solve_decision. Defined.

(** The order of the ranks is the order of their values. *)
Definition rank_le (a b : Rank) : Prop := (Rank_value a <= Rank_value b)%Z.
Definition rank_lt (a b : Rank) : Prop := (Rank_value a < Rank_value b)%Z.

(** The rank one step above, when there is one. *)
Definition next_rank (r : Rank) : option Rank :=
  match r with
  | OPERATOR => Some SUPERVISOR
  | SUPERVISOR => Some DIRECTOR
  | DIRECTOR => None
  end.

(** [Call.rank] is annotated [Rank], and Python does not enforce it: the
    attribute holds a member of [Rank] or any other value.  A value that is
    not a member compares unequal to every member. *)
Inductive RankValue :=
| IsRank (r : Rank)
| NotRank (v : Z).

#[global] Instance RankValue_eq_dec : EqDecision RankValue.
Proof. solve_decision. Defined.

(** ** Objects and references *)

(** References are positions in the store. *)
Abbreviation eref := nat (only parsing).
Abbreviation cref := nat (only parsing).

(** The three concrete subclasses of the abstract class [Employee]. *)
Inductive Class := Operator | Supervisor | Director.

#[global] Instance Class_eq_dec : EqDecision Class.
Proof. solve_decision. Defined.

(** The rank each subclass passes to [Employee.__init__]. *)
Definition Class_rank (k : Class) : Rank :=
  match k with
  | Operator => OPERATOR
  | Supervisor => SUPERVISOR
  | Director => DIRECTOR
  end.

Module Call.
(** [class Call]: [state], [rank] and the back-reference [employee]. *)
Record t := mk {
  state : CallState;
  rank : RankValue;
  employee : option eref
}.

Definition set_state (v : CallState) (c : t) : t :=
  mk v (rank c) (employee c).
Definition set_rank (v : RankValue) (c : t) : t :=
  mk (state c) v (employee c).
Definition set_employee (v : option eref) (c : t) : t :=
  mk (state c) (rank c) v.

(** [Call.__init__(self, rank)]. *)
Definition __init__ (rank : RankValue) : t := mk READY rank None.
End Call.

Module Employee.
(** [class Employee]: the attributes set by [__init__] and the subclass
    the object was built from, which selects [escalate_call].  The
    attribute [call_center] refers to the one [CallCenter] of the store. *)
Record t := mk {
  employee_id : Z;
  name : string;
  rank : Rank;
  call : option cref;
  class : Class
}.

Definition set_call (v : option cref) (e : t) : t :=
  mk (employee_id e) (name e) (rank e) v (class e).

(** [Operator.__init__], [Supervisor.__init__] and [Director.__init__]:
    each calls [Employee.__init__] with its own rank. *)
Definition __init__ (k : Class) (employee_id : Z) (name : string) : t :=
  mk employee_id name (Class_rank k) None k.
End Employee.

#[global] Instance Call_eq_dec : EqDecision Call.t.
Proof. solve_decision. Defined.
#[global] Instance Employee_eq_dec : EqDecision Employee.t.
Proof. solve_decision. Defined.

(** [class CallCenter]: the three pools, in registration order, and the
    queue of the calls that found nobody. *)
Record CallCenter := mkCallCenter {
  operators : list eref;
  supervisors : list eref;
  directors : list eref;
  queued_calls : list cref
}.

(** The store: every employee object, every call object and the centre. *)
Record World := mkWorld {
  employees : list Employee.t;
  calls : list Call.t;
  center : CallCenter
}.

#[global] Instance CallCenter_eq_dec : EqDecision CallCenter.
Proof. solve_decision. Defined.
#[global] Instance World_eq_dec : EqDecision World.
Proof. solve_decision. Defined.

Definition set_employees (v : list Employee.t) (w : World) : World :=
  mkWorld v (calls w) (center w).
Definition set_calls (v : list Call.t) (w : World) : World :=
  mkWorld (employees w) v (center w).
Definition set_center (v : CallCenter) (w : World) : World :=
  mkWorld (employees w) (calls w) v.

(** ** Computations *)

(** The exceptions the program can raise: two by a [raise] statement, and
    [AttributeError] when an attribute of [None] is read or written. *)
Inductive Exception := ValueError | NotImplementedError | AttributeError.

(** A method returns a value or raises; [Stuck] is the outcome of following
    a reference that names no object, which no Python program can do. *)
Inductive Outcome (A : Type) :=
| Returned (a : A)
| Raised (e : Exception)
| Stuck.
Arguments Returned {A} a.
Arguments Raised {A} e.
Arguments Stuck {A}.

Definition Py (A : Type) : Type := World → Outcome A * World.

#[global] Instance Py_ret : MRet Py := λ A a w, (Returned a, w).

#[global] Instance Py_bind : MBind Py := λ A B f m w,
  match m w with
  | (Returned a, w') => f a w'
  | (Raised e, w') => (Raised e, w')
  | (Stuck, w') => (Stuck, w')
  end.

Definition raise {A} (e : Exception) : Py A := λ w, (Raised e, w).

(** Reading an object through its reference. *)
Definition load_employee (e : eref) : Py Employee.t := λ w,
  match employees w !! e with
  | Some x => (Returned x, w)
  | None => (Stuck, w)
  end.

Definition load_call (c : cref) : Py Call.t := λ w,
  match calls w !! c with
  | Some x => (Returned x, w)
  | None => (Stuck, w)
  end.

(** Assigning to an attribute of an object. *)
Definition update_employee (e : eref) (f : Employee.t → Employee.t) : Py unit := λ w,
  match employees w !! e with
  | Some _ => (Returned tt, set_employees (alter f e (employees w)) w)
  | None => (Stuck, w)
  end.

Definition update_call (c : cref) (f : Call.t → Call.t) : Py unit := λ w,
  match calls w !! c with
  | Some _ => (Returned tt, set_calls (alter f c (calls w)) w)
  | None => (Stuck, w)
  end.

(** The object [self.call] when one of its attributes is accessed: [None]
    has no attributes. *)
Definition self_call (self : eref) : Py cref :=
  e ← load_employee self;
  match Employee.call e with
  | Some c => mret c
  | None => raise AttributeError
  end.

(** [Call(rank)]: a new call object, and the reference to it. *)
Definition new_Call (rank : RankValue) : Py cref := λ w,
  (Returned (length (calls w)), set_calls (calls w ++ [Call.__init__ rank]) w).

(** ** CallCenter: the notification methods *)

(** [CallCenter.notify_call_escalated]: its body is [pass]. *)
Definition notify_call_escalated (call : option cref) : Py unit := mret tt.

(** [CallCenter.notify_call_completed]: its body is [pass]. *)
Definition notify_call_completed (call : option cref) : Py unit := mret tt.

(** [CallCenter.dispatch_queued_call_to_newly_freed_employee]: its body is
    [pass]. *)
Definition dispatch_queued_call_to_newly_freed_employee
    (call : cref) (employee : eref) : Py unit := mret tt.

(** ** Employee *)

(** [Employee.take_call]. *)
Definition take_call (self : eref) (call : cref) : Py unit :=
  update_employee self (Employee.set_call (Some call));;
  c ← self_call self;
  update_call c (Call.set_employee (Some self));;
  c ← self_call self;
  update_call c (Call.set_state IN_PROGRESS).

(** [Employee.complete_call]. *)
Definition complete_call (self : eref) : Py unit :=
  c ← self_call self;
  update_call c (Call.set_state COMPLETE);;
  e ← load_employee self;
  notify_call_completed (Employee.call e).

(** [Employee._escalate_call]. *)
Definition _escalate_call (self : eref) : Py unit :=
  c ← self_call self;
  update_call c (Call.set_state READY);;
  e ← load_employee self;
  let call := Employee.call e in
  update_employee self (Employee.set_call None);;
  notify_call_escalated call.

(** [Operator.escalate_call]. *)
Definition Operator_escalate_call (self : eref) : Py unit :=
  c ← self_call self;
  update_call c (Call.set_rank (IsRank SUPERVISOR));;
  _escalate_call self.

(** [Supervisor.escalate_call]. *)
Definition Supervisor_escalate_call (self : eref) : Py unit :=
  c ← self_call self;
  update_call c (Call.set_rank (IsRank DIRECTOR));;
  _escalate_call self.

(** [Director.escalate_call]. *)
Definition Director_escalate_call (self : eref) : Py unit :=
  raise NotImplementedError.

(** [employee.escalate_call()]: the method of the object's class. *)
Definition escalate_call (self : eref) : Py unit :=
  e ← load_employee self;
  match Employee.class e with
  | Operator => Operator_escalate_call self
  | Supervisor => Supervisor_escalate_call self
  | Director => Director_escalate_call self
  end.

(** ** CallCenter: dispatching *)

(** [CallCenter._dispatch_to_available]: the [for] loop over the list. *)
Fixpoint _dispatch_to_available (call : cref) (employees : list eref)
    : Py (option eref) :=
  match employees with
  | [] => mret None
  | employee :: rest =>
      e ← load_employee employee;
      match Employee.call e with
      | None => take_call employee call;; mret (Some employee)
      | Some _ => _dispatch_to_available call rest
      end
  end.

(** [a or b] on results that are an employee or [None]: [b] is evaluated
    only when [a] is [None]. *)
Definition or_else (a b : Py (option eref)) : Py (option eref) :=
  r ← a;
  match r with
  | Some e => mret (Some e)
  | None => b
  end.

(** Reading one of the lists [self.operators], [self.supervisors] or
    [self.directors] of the centre. *)
Definition pool (attr : CallCenter → list eref) : Py (list eref) := λ w,
  (Returned (attr (center w)), w).

(** [self._dispatch_to_available(call, self.<attr>)]. *)
Definition dispatch_to (call : cref) (attr : CallCenter → list eref)
    : Py (option eref) :=
  es ← pool attr;
  _dispatch_to_available call es.

(** [CallCenter._dispatch_call_based_on_rank]. *)
Definition _dispatch_call_based_on_rank (call : cref) : Py (option eref) :=
  c ← load_call call;
  if decide (Call.rank c = IsRank OPERATOR) then
    dispatch_to call operators
  else if decide (Call.rank c = IsRank SUPERVISOR) then
    or_else (dispatch_to call supervisors) (dispatch_to call operators)
  else if decide (Call.rank c = IsRank DIRECTOR) then
    or_else (or_else (dispatch_to call directors) (dispatch_to call supervisors))
            (dispatch_to call operators)
  else mret None.

(** [self.queued_calls.append(call)]. *)
Definition queued_calls_append (call : cref) : Py unit := λ w,
  let cc := center w in
  (Returned tt,
   set_center (mkCallCenter (operators cc) (supervisors cc) (directors cc)
                            (queued_calls cc ++ [call])) w).

(** [CallCenter.dispatch_call]. *)
Definition dispatch_call (call : cref) : Py unit :=
  c ← load_call call;
  if decide (Call.rank c ∈ [IsRank OPERATOR; IsRank SUPERVISOR; IsRank DIRECTOR])
  then
    employee ← _dispatch_call_based_on_rank call;
    match employee with
    | Some _ => mret tt
    | None => queued_calls_append call
    end
  else raise ValueError.

(** ** The store after each method, written out *)

(** The slot [employee.call] of a reference: [None] when the reference names
    no object, [Some None] when the employee holds no call. *)
Definition slot (w : World) (e : eref) : option (option cref) :=
  Employee.call <$> employees w !! e.

Definition free (w : World) (e : eref) : Prop := slot w e = Some None.
Definition busy (w : World) (e : eref) : Prop := ∃ c, slot w e = Some (Some c).

(** What [take_call] leaves: the employee holds the call, the call points
    back and is in progress. *)
Definition bound (self : eref) (call : cref) (w : World) : World :=
  mkWorld (alter (Employee.set_call (Some call)) self (employees w))
          (alter (λ c, Call.mk IN_PROGRESS (Call.rank c) (Some self)) call (calls w))
          (center w).

(** What [complete_call] leaves when [self] holds [call]. *)
Definition completed (call : cref) (w : World) : World :=
  set_calls (alter (Call.set_state COMPLETE) call (calls w)) w.

(** What [escalate_call] of an Operator or a Supervisor leaves when [self]
    holds [call]: [rank] is the rank written by the subclass. *)
Definition escalated (self : eref) (call : cref) (rank : Rank) (w : World) : World :=
  mkWorld (alter (Employee.set_call None) self (employees w))
          (alter (λ c, Call.mk READY (IsRank rank) (Call.employee c)) call (calls w))
          (center w).

(** What [dispatch_call] leaves when nobody took the call. *)
Definition queued (call : cref) (w : World) : World :=
  set_center (mkCallCenter (operators (center w)) (supervisors (center w))
                (directors (center w)) (queued_calls (center w) ++ [call])) w.

(** ** Executions *)

(** The operations a client performs: building a call, submitting it, and
    the two ways an employee ends its work on a call. *)
Inductive Op :=
| NewCall (rank : RankValue)
| DispatchCall (call : cref)
| CompleteCall (employee : eref)
| EscalateCall (employee : eref).

(** The store after one operation, whether it returned or raised. *)
Definition run_op (o : Op) (w : World) : World :=
  match o with
  | NewCall r => (new_Call r w).2
  | DispatchCall c => (dispatch_call c w).2
  | CompleteCall e => (complete_call e w).2
  | EscalateCall e => (escalate_call e w).2
  end.

Definition run_ops (os : list Op) (w : World) : World :=
  foldl (λ w o, run_op o w) w os.

(** A centre as [CallCenter.__init__] builds it from employees that
    [__init__] built: no call exists, nobody holds one, the queue is empty. *)
Definition initial (w : World) : Prop :=
  calls w = [] ∧ queued_calls (center w) = [] ∧
  Forall (λ e, Employee.call e = None) (employees w).

Definition reachable (w : World) : Prop :=
  ∃ w0 os, initial w0 ∧ w = run_ops os w0.

(** What one search through a pool can do to the store. *)
Definition search_result (call : cref) (w : World)
    (r : Outcome (option eref) * World) : Prop :=
  r = (Returned None, w) ∨ r = (Stuck, w) ∨
  ∃ e, free w e ∧ r = (Returned (Some e), bound e call w).

(** ** The link between a call and its employee *)

(** A call in progress names an employee, and that employee holds it. *)
Definition back_linked (w : World) : Prop :=
  ∀ call c, calls w !! call = Some c → Call.state c = IN_PROGRESS →
    ∃ self e, Call.employee c = Some self ∧ employees w !! self = Some e ∧
              Employee.call e = Some call.

(** ** Who could take a queued call *)

(** An employee is able to serve rank [r] when it is free and its own rank
    is [r] or above. *)
Definition can_serve (w : World) (r : Rank) (e : eref) : bool :=
  match employees w !! e with
  | Some x => bool_decide (Employee.call x = None)
              && (Rank_value r <=? Rank_value (Employee.rank x))%Z
  | None => false
  end.

Definition pooled (w : World) : list eref :=
  operators (center w) ++ supervisors (center w) ++ directors (center w).

(** A call is routable when some employee of the pools is able to serve its
    rank. *)
Definition routable (w : World) (call : cref) : bool :=
  match calls w !! call with
  | Some c =>
      match Call.rank c with
      | IsRank r => existsb (can_serve w r) (pooled w)
      | NotRank _ => false
      end
  | None => false
  end.

(** The longest-waiting routable call of the queue. *)
Definition first_routable (w : World) : option cref :=
  List.find (routable w) (queued_calls (center w)).

(** ** Small centres *)

Definition one_operator : World :=
  mkWorld [Employee.__init__ Operator 1 "Ada"] []
          (mkCallCenter [0] [] [] []).

Definition two_operators : World :=
  mkWorld [Employee.__init__ Operator 1 "Ada"; Employee.__init__ Operator 2 "Bob"] []
          (mkCallCenter [0; 1] [] [] []).

Definition operator_and_supervisor : World :=
  mkWorld [Employee.__init__ Operator 1 "Ada"; Employee.__init__ Supervisor 2 "Sue"] []
          (mkCallCenter [0] [1] [] []).

Definition one_director : World :=
  mkWorld [Employee.__init__ Director 3 "Dee"] []
          (mkCallCenter [] [] [0] []).

(** ** Situations reached from the small centres *)

(** The Operator of [one_operator] holds call 0. *)
Definition operator_on_call : World :=
  run_ops [NewCall (IsRank OPERATOR); DispatchCall 0] one_operator.

(** The Operator holds call 0, and call 1 has just been built. *)
Definition operator_on_call_and_new_call : World :=
  run_ops [NewCall (IsRank OPERATOR); DispatchCall 0; NewCall (IsRank OPERATOR)]
          one_operator.

(** The Operator took call 0 and completed it. *)
Definition operator_done : World :=
  run_ops [NewCall (IsRank OPERATOR); DispatchCall 0; CompleteCall 0] one_operator.

(** A call of rank SUPERVISOR has just been built; the only employee is a
    free Operator. *)
Definition supervisor_call_for_operator : World :=
  run_ops [NewCall (IsRank SUPERVISOR)] one_operator.

(** A call of rank OPERATOR has just been built; the only employee is a free
    Director. *)
Definition operator_call_for_director : World :=
  run_ops [NewCall (IsRank OPERATOR)] one_director.

(** The only employee, an Operator, was given a call of rank DIRECTOR. *)
Definition operator_on_director_call : World :=
  run_ops [NewCall (IsRank DIRECTOR); DispatchCall 0] one_operator.

(** The Director of [one_director] holds call 0, of rank DIRECTOR. *)
Definition director_on_call : World :=
  run_ops [NewCall (IsRank DIRECTOR); DispatchCall 0] one_director.

(** The Operator holds call 0 and the Supervisor is free. *)
Definition operator_on_call_supervisor_free : World :=
  run_ops [NewCall (IsRank OPERATOR); DispatchCall 0] operator_and_supervisor.


(** The first of two Operators holds call 0, the second is free, and call 1
    has just been built. *)
Definition first_operator_on_call : World :=
  run_ops [NewCall (IsRank OPERATOR); DispatchCall 0; NewCall (IsRank OPERATOR)]
          two_operators.

(** Two Operators took calls 0 and 1, call 2 was queued, and then the second
    Operator escalated call 1: it is free while call 2 waits. *)
Definition waiting_call_and_free_operator : World :=
  run_ops [NewCall (IsRank OPERATOR); DispatchCall 0;
           NewCall (IsRank OPERATOR); DispatchCall 1;
           NewCall (IsRank OPERATOR); DispatchCall 2;
           EscalateCall 1] two_operators.

(** ** The order of the routing search *)

(** The employees [_dispatch_call_based_on_rank] tries for a call of rank
    [r], in the order in which it tries them. *)
Definition search_order (r : Rank) (cc : CallCenter) : list eref :=
  match r with
  | OPERATOR => operators cc
  | SUPERVISOR => supervisors cc ++ operators cc
  | DIRECTOR => directors cc ++ supervisors cc ++ operators cc
  end.

(** ** What no method assigns to *)

(** The attributes of an employee other than [call]. *)
Definition fixed_attributes (e : Employee.t) : Z * string * Rank * Class :=
  (Employee.employee_id e, Employee.name e, Employee.rank e, Employee.class e).

(** Every call that an employee holds or that is queued is an object. *)
Definition refs_allocated (w : World) : Prop :=
  (∀ e c, slot w e = Some (Some c) → is_Some (calls w !! c)) ∧
  (∀ q, q ∈ queued_calls (center w) → is_Some (calls w !! q)).

(** Every call whose rank is not a member of [Rank] is as [Call.__init__]
    left it, held by nobody and not queued. *)
Definition unranked_untouched (w : World) : Prop :=
  ∀ call c v, calls w !! call = Some c → Call.rank c = NotRank v →
    c = Call.__init__ (NotRank v) ∧
    (∀ e, slot w e ≠ Some (Some call)) ∧
    call ∉ queued_calls (center w).

(** Every call that an employee holds names an employee, and every call
    that names none is READY. *)
Definition untaken_ready (w : World) : Prop :=
  (∀ e c, slot w e = Some (Some c) →
     ∃ x, calls w !! c = Some x ∧ is_Some (Call.employee x)) ∧
  (∀ c x, calls w !! c = Some x → Call.employee x = None → Call.state x = READY).

(** The Operator of [one_operator] is handed a call whose rank is the
    integer 7. *)
Definition unranked_call_arrives : World :=
  run_ops [NewCall (NotRank 7)] one_operator.

(** Each of the three employees of a full centre holds a call, and call 3,
    of rank DIRECTOR, has just been built. *)
Definition full_house : World :=
  run_ops [NewCall (IsRank OPERATOR); DispatchCall 0;
           NewCall (IsRank SUPERVISOR); DispatchCall 1;
           NewCall (IsRank DIRECTOR); DispatchCall 2;
           NewCall (IsRank DIRECTOR)]
    (mkWorld [Employee.__init__ Operator 1 "Ada"; Employee.__init__ Supervisor 2 "Sue";
              Employee.__init__ Director 3 "Dee"] []
             (mkCallCenter [0] [1] [2] [])).

(** * Proofs *)

(** ** Running the monad *)

Lemma bind_returned {A B} (m : Py A) (f : A → Py B) w a w' :
  m w = (Returned a, w') → (m ≫= f) w = f a w'.
Proof. intros H. unfold mbind, Py_bind. by rewrite H. Qed.

Lemma bind_raised {A B} (m : Py A) (f : A → Py B) w e w' :
  m w = (Raised e, w') → (m ≫= f) w = (Raised e, w').
Proof. intros H. unfold mbind, Py_bind. by rewrite H. Qed.

Lemma bind_stuck {A B} (m : Py A) (f : A → Py B) w w' :
  m w = (Stuck, w') → (m ≫= f) w = (Stuck, w').
Proof. intros H. unfold mbind, Py_bind. by rewrite H. Qed.

Lemma load_employee_Some w self e :
  employees w !! self = Some e → load_employee self w = (Returned e, w).
Proof. intros H. unfold load_employee. by rewrite H. Qed.

Lemma load_employee_None w self :
  employees w !! self = None → load_employee self w = (Stuck, w).
Proof. intros H. unfold load_employee. by rewrite H. Qed.

Lemma load_call_Some w call c :
  calls w !! call = Some c → load_call call w = (Returned c, w).
Proof. intros H. unfold load_call. by rewrite H. Qed.

Lemma load_call_None w call :
  calls w !! call = None → load_call call w = (Stuck, w).
Proof. intros H. unfold load_call. by rewrite H. Qed.

Lemma update_employee_Some w self e f :
  employees w !! self = Some e →
  update_employee self f w = (Returned tt, set_employees (alter f self (employees w)) w).
Proof. intros H. unfold update_employee. by rewrite H. Qed.

Lemma update_call_Some w call c f :
  calls w !! call = Some c →
  update_call call f w = (Returned tt, set_calls (alter f call (calls w)) w).
Proof. intros H. unfold update_call. by rewrite H. Qed.

Lemma self_call_Some w self e c :
  employees w !! self = Some e → Employee.call e = Some c →
  self_call self w = (Returned c, w).
Proof.
  intros He Hc. unfold self_call.
  rewrite (bind_returned _ _ _ _ _ (load_employee_Some _ _ _ He)).
  by rewrite Hc.
Qed.

Lemma self_call_None w self e :
  employees w !! self = Some e → Employee.call e = None →
  self_call self w = (Raised AttributeError, w).
Proof.
  intros He Hc. unfold self_call.
  rewrite (bind_returned _ _ _ _ _ (load_employee_Some _ _ _ He)).
  by rewrite Hc.
Qed.

Lemma self_call_dangling w self :
  employees w !! self = None → self_call self w = (Stuck, w).
Proof.
  intros He. unfold self_call.
  by rewrite (bind_stuck _ _ _ _ (load_employee_None _ _ He)).
Qed.

(** ** The methods of Employee *)

Lemma take_call_bound w self call :
  is_Some (employees w !! self) → is_Some (calls w !! call) →
  take_call self call w = (Returned tt, bound self call w).
Proof.
  intros [e He] [c Hc]. unfold take_call.
  rewrite (bind_returned _ _ _ _ _ (update_employee_Some _ _ _ _ He)).
  set (w1 := set_employees _ w).
  assert (H1 : employees w1 !! self = Some (Employee.set_call (Some call) e)).
  { unfold w1, set_employees; cbn [employees]. by rewrite list_lookup_alter_eq, He. }
  rewrite (bind_returned _ _ _ _ _ (self_call_Some _ _ _ call H1 eq_refl)).
  assert (Hc1 : calls w1 !! call = Some c) by done.
  rewrite (bind_returned _ _ _ _ _ (update_call_Some _ _ _ _ Hc1)).
  set (w2 := set_calls _ w1).
  assert (H2 : employees w2 !! self = Some (Employee.set_call (Some call) e)) by done.
  rewrite (bind_returned _ _ _ _ _ (self_call_Some _ _ _ call H2 eq_refl)).
  assert (Hc2 : calls w2 !! call = Some (Call.set_employee (Some self) c)).
  { unfold w2, set_calls; cbn [calls]. by rewrite list_lookup_alter_eq, Hc1. }
  rewrite (update_call_Some _ _ _ _ Hc2).
  f_equal. unfold bound, w2, w1, set_calls, set_employees; cbn [employees calls center].
  f_equal. rewrite list_alter_alter_eq. by apply list_alter_ext.
Qed.

Lemma complete_call_held w self e call :
  employees w !! self = Some e → Employee.call e = Some call →
  is_Some (calls w !! call) →
  complete_call self w = (Returned tt, completed call w).
Proof.
  intros He Hcall [c Hc]. unfold complete_call.
  rewrite (bind_returned _ _ _ _ _ (self_call_Some _ _ _ _ He Hcall)).
  rewrite (bind_returned _ _ _ _ _ (update_call_Some _ _ _ _ Hc)).
  by rewrite (bind_returned _ _ _ _ _ (load_employee_Some (set_calls _ w) _ _ He)).
Qed.

Lemma complete_call_idle w self e :
  employees w !! self = Some e → Employee.call e = None →
  complete_call self w = (Raised AttributeError, w).
Proof.
  intros He Hcall. unfold complete_call.
  by rewrite (bind_raised _ _ _ _ _ (self_call_None _ _ _ He Hcall)).
Qed.

(** The store never changes when [complete_call] does not return. *)
Lemma complete_call_world w self :
  (complete_call self w).2 = w ∨
  ∃ e call, employees w !! self = Some e ∧ Employee.call e = Some call ∧
            is_Some (calls w !! call) ∧ (complete_call self w).2 = completed call w.
Proof.
  destruct (employees w !! self) as [e|] eqn:He.
  - destruct (Employee.call e) as [call|] eqn:Hcall.
    + destruct (calls w !! call) as [c|] eqn:Hc.
      * right. exists e, call. repeat split; [done..| eauto |].
        by rewrite (complete_call_held _ _ _ _ He Hcall) by eauto.
      * left. unfold complete_call.
        rewrite (bind_returned _ _ _ _ _ (self_call_Some _ _ _ _ He Hcall)).
        unfold update_call, mbind, Py_bind. by rewrite Hc.
    + left. by rewrite (complete_call_idle _ _ _ He Hcall).
  - left. unfold complete_call.
    by rewrite (bind_stuck _ _ _ _ (self_call_dangling _ _ He)).
Qed.

Lemma _escalate_call_held w self e call :
  employees w !! self = Some e → Employee.call e = Some call →
  is_Some (calls w !! call) →
  _escalate_call self w =
    (Returned tt,
     mkWorld (alter (Employee.set_call None) self (employees w))
             (alter (Call.set_state READY) call (calls w)) (center w)).
Proof.
  intros He Hcall [c Hc]. unfold _escalate_call.
  rewrite (bind_returned _ _ _ _ _ (self_call_Some _ _ _ _ He Hcall)).
  rewrite (bind_returned _ _ _ _ _ (update_call_Some _ _ _ _ Hc)).
  rewrite (bind_returned _ _ _ _ _ (load_employee_Some (set_calls _ w) _ _ He)).
  by rewrite (bind_returned _ _ _ _ _
                (update_employee_Some (set_calls _ w) _ _ _ He)).
Qed.

(** The body shared by [Operator.escalate_call] and
    [Supervisor.escalate_call], for the rank each writes. *)
Lemma subclass_escalate_call_held w self e call rank :
  employees w !! self = Some e → Employee.call e = Some call →
  is_Some (calls w !! call) →
  (c ← self_call self;
   update_call c (Call.set_rank (IsRank rank));;
   _escalate_call self) w = (Returned tt, escalated self call rank w).
Proof.
  intros He Hcall [c Hc].
  rewrite (bind_returned _ _ _ _ _ (self_call_Some _ _ _ _ He Hcall)).
  rewrite (bind_returned _ _ _ _ _ (update_call_Some _ _ _ _ Hc)).
  rewrite (_escalate_call_held (set_calls _ w) self e call); [|done..|].
  - f_equal. unfold escalated, set_calls; cbn [employees calls center].
    f_equal. rewrite list_alter_alter_eq. by apply list_alter_ext.
  - unfold set_calls; cbn [calls]. rewrite list_lookup_alter_eq, Hc. eauto.
Qed.

Lemma escalate_call_held w self e call rank :
  employees w !! self = Some e → Employee.call e = Some call →
  is_Some (calls w !! call) →
  next_rank (Class_rank (Employee.class e)) = Some rank →
  escalate_call self w = (Returned tt, escalated self call rank w).
Proof.
  intros He Hcall Hc Hr. unfold escalate_call.
  rewrite (bind_returned _ _ _ _ _ (load_employee_Some _ _ _ He)).
  destruct (Employee.class e); simpl in Hr; simplify_eq.
  - by apply (subclass_escalate_call_held _ _ e).
  - by apply (subclass_escalate_call_held _ _ e).
Qed.

Lemma escalate_call_idle w self e :
  employees w !! self = Some e → Employee.call e = None →
  Employee.class e ≠ Director →
  escalate_call self w = (Raised AttributeError, w).
Proof.
  intros He Hcall Hk. unfold escalate_call.
  rewrite (bind_returned _ _ _ _ _ (load_employee_Some _ _ _ He)).
  destruct (Employee.class e); [| |done].
  - unfold Operator_escalate_call.
    by rewrite (bind_raised _ _ _ _ _ (self_call_None _ _ _ He Hcall)).
  - unfold Supervisor_escalate_call.
    by rewrite (bind_raised _ _ _ _ _ (self_call_None _ _ _ He Hcall)).
Qed.

Lemma escalate_call_Director w self e :
  employees w !! self = Some e → Employee.class e = Director →
  escalate_call self w = (Raised NotImplementedError, w).
Proof.
  intros He Hk. unfold escalate_call.
  rewrite (bind_returned _ _ _ _ _ (load_employee_Some _ _ _ He)).
  by rewrite Hk.
Qed.

Lemma escalate_call_world w self :
  (escalate_call self w).2 = w ∨
  ∃ e call rank, employees w !! self = Some e ∧ Employee.call e = Some call ∧
     is_Some (calls w !! call) ∧
     next_rank (Class_rank (Employee.class e)) = Some rank ∧
     (escalate_call self w).2 = escalated self call rank w.
Proof.
  destruct (employees w !! self) as [e|] eqn:He.
  2:{ left. unfold escalate_call.
      by rewrite (bind_stuck _ _ _ _ (load_employee_None _ _ He)). }
  destruct (decide (Employee.class e = Director)) as [Hk|Hk].
  { left. by rewrite (escalate_call_Director _ _ _ He Hk). }
  destruct (Employee.call e) as [call|] eqn:Hcall.
  2:{ left. by rewrite (escalate_call_idle _ _ _ He Hcall Hk). }
  destruct (calls w !! call) as [c|] eqn:Hc.
  - right. destruct (next_rank (Class_rank (Employee.class e))) as [rank|] eqn:Hr.
    2:{ by destruct (Employee.class e). }
    exists e, call, rank. repeat split; [done..|eauto|done|].
    by rewrite (escalate_call_held _ _ _ _ _ He Hcall) by eauto.
  - left. unfold escalate_call.
    rewrite (bind_returned _ _ _ _ _ (load_employee_Some _ _ _ He)).
    destruct (Employee.class e); [| |done].
    + unfold Operator_escalate_call.
      rewrite (bind_returned _ _ _ _ _ (self_call_Some _ _ _ _ He Hcall)).
      unfold update_call, mbind, Py_bind. by rewrite Hc.
    + unfold Supervisor_escalate_call.
      rewrite (bind_returned _ _ _ _ _ (self_call_Some _ _ _ _ He Hcall)).
      unfold update_call, mbind, Py_bind. by rewrite Hc.
Qed.

(** ** The dispatching methods of CallCenter *)

Lemma free_lookup w e :
  free w e ↔ ∃ x, employees w !! e = Some x ∧ Employee.call x = None.
Proof.
  unfold free, slot. destruct (employees w !! e) as [x|]; simpl.
  - split; [intros [= H]; eauto | by intros (? & [= <-] & ->)].
  - split; [done | by intros (? & ? & ?)].
Qed.

Lemma busy_lookup w e :
  busy w e ↔ ∃ x c, employees w !! e = Some x ∧ Employee.call x = Some c.
Proof.
  unfold busy, slot. destruct (employees w !! e) as [x|]; simpl.
  - split; [intros [c [= H]]; eauto | intros (? & c & [= <-] & ->); eauto].
  - split; [by intros [? ?] | by intros (? & ? & ? & ?)].
Qed.

Lemma _dispatch_to_available_busy w call es :
  Forall (busy w) es → _dispatch_to_available call es w = (Returned None, w).
Proof.
  induction 1 as [|e es He _ IH]; [done|]. simpl.
  apply busy_lookup in He as (x & c & Hx & Hc).
  rewrite (bind_returned _ _ _ _ _ (load_employee_Some _ _ _ Hx)).
  by rewrite Hc.
Qed.

Lemma _dispatch_to_available_free w call pre e post :
  is_Some (calls w !! call) → Forall (busy w) pre → free w e →
  _dispatch_to_available call (pre ++ e :: post) w
    = (Returned (Some e), bound e call w).
Proof.
  intros Hcall Hpre He. induction Hpre as [|b pre Hb _ IH]; simpl.
  - apply free_lookup in He as (x & Hx & Hc).
    rewrite (bind_returned _ _ _ _ _ (load_employee_Some _ _ _ Hx)).
    rewrite Hc.
    by rewrite (bind_returned _ _ _ _ _ (take_call_bound w e call (mk_is_Some _ _ Hx) Hcall)).
  - apply busy_lookup in Hb as (x & c & Hx & Hc).
    rewrite (bind_returned _ _ _ _ _ (load_employee_Some _ _ _ Hx)).
    by rewrite Hc.
Qed.

Lemma _dispatch_to_available_dangling w call pre e post :
  Forall (busy w) pre → employees w !! e = None →
  _dispatch_to_available call (pre ++ e :: post) w = (Stuck, w).
Proof.
  intros Hpre He. induction Hpre as [|b pre Hb _ IH]; simpl.
  - by rewrite (bind_stuck _ _ _ _ (load_employee_None _ _ He)).
  - apply busy_lookup in Hb as (x & c & Hx & Hc).
    rewrite (bind_returned _ _ _ _ _ (load_employee_Some _ _ _ Hx)).
    by rewrite Hc.
Qed.

(** Every list splits at its first employee that is not busy, if any. *)
Lemma first_not_busy w (es : list nat) :
  Forall (busy w) es ∨
  ∃ pre e post, es = pre ++ e :: post ∧ Forall (busy w) pre ∧
                (free w e ∨ employees w !! e = None).
Proof.
  induction es as [|e es IH]; [by left|].
  destruct (employees w !! e) as [x|] eqn:Hx.
  - destruct (Employee.call x) as [c|] eqn:Hc.
    + assert (busy w e) by (apply busy_lookup; eauto).
      destruct IH as [IH|(pre & e' & post & -> & Hpre & He')].
      * left. by constructor.
      * right. exists (e :: pre), e', post. repeat split; [by constructor | done].
    + right. exists [], e, es. repeat split; [done|]. left. apply free_lookup. eauto.
  - right. exists [], e, es. repeat split; [done|]. by right.
Qed.

Lemma _dispatch_to_available_result w call es :
  is_Some (calls w !! call) →
  search_result call w (_dispatch_to_available call es w).
Proof.
  intros Hcall.
  destruct (first_not_busy w es) as [H|(pre & e & post & -> & Hpre & [He|He])].
  - left. by apply _dispatch_to_available_busy.
  - right; right. exists e. split; [done|]. by apply _dispatch_to_available_free.
  - right; left. by apply _dispatch_to_available_dangling.
Qed.

Lemma dispatch_to_unfold w call attr :
  dispatch_to call attr w = _dispatch_to_available call (attr (center w)) w.
Proof. done. Qed.

Lemma or_else_result w call a b :
  search_result call w (a w) → search_result call w (b w) →
  search_result call w (or_else a b w).
Proof.
  intros [Ha|[Ha|(e & He & Ha)]] Hb; unfold or_else.
  - by rewrite (bind_returned _ _ _ _ _ Ha).
  - rewrite (bind_stuck _ _ _ _ Ha). right; by left.
  - rewrite (bind_returned _ _ _ _ _ Ha). right; right. eauto.
Qed.

Lemma _dispatch_call_based_on_rank_result w call :
  is_Some (calls w !! call) →
  search_result call w (_dispatch_call_based_on_rank call w).
Proof.
  intros Hcall. pose proof Hcall as [c Hc]. unfold _dispatch_call_based_on_rank.
  rewrite (bind_returned _ _ _ _ _ (load_call_Some _ _ _ Hc)).
  repeat case_decide.
  - by apply _dispatch_to_available_result.
  - apply or_else_result; by apply _dispatch_to_available_result.
  - repeat apply or_else_result; by apply _dispatch_to_available_result.
  - by left.
Qed.

(** The store after [dispatch_call]: untouched, or the call bound to an
    employee that was free, or the call appended to the queue. *)
Lemma dispatch_call_world w call :
  (dispatch_call call w).2 = w ∨
  (∃ e, free w e ∧ (dispatch_call call w).2 = bound e call w) ∨
  (dispatch_call call w).2 = queued call w.
Proof.
  destruct (calls w !! call) as [c|] eqn:Hc; unfold dispatch_call.
  2:{ left. by rewrite (bind_stuck _ _ _ _ (load_call_None _ _ Hc)). }
  rewrite (bind_returned _ _ _ _ _ (load_call_Some _ _ _ Hc)).
  case_decide; [|by left].
  destruct (_dispatch_call_based_on_rank_result w call) as [H'|[H'|(e & He & H')]];
    [eauto|..].
  - rewrite (bind_returned _ _ _ _ _ H'). by right; right.
  - rewrite (bind_stuck _ _ _ _ H'). by left.
  - rewrite (bind_returned _ _ _ _ _ H'). right; left. eauto.
Qed.

(** ** Calls in progress stay linked to their employee *)

Lemma back_linked_initial w : initial w → back_linked w.
Proof. intros (Hc & _ & _) call c. by rewrite Hc. Qed.

Lemma back_linked_new_Call w rank :
  back_linked w → back_linked (new_Call rank w).2.
Proof.
  intros Hw call c. unfold new_Call, set_calls; cbn [snd calls employees].
  intros [Hc|[_ Hc]]%lookup_app_Some Hs; [by eapply Hw|].
  apply list_lookup_singleton_Some in Hc as [_ <-]. done.
Qed.

Lemma back_linked_bound w e call :
  back_linked w → free w e → back_linked (bound e call w).
Proof.
  intros Hw (x & Hx & Hfree)%free_lookup call' c.
  unfold bound; cbn [calls employees].
  destruct (decide (call = call')) as [<-|Hne].
  - rewrite list_lookup_alter_eq. intros Hc _.
    destruct (calls w !! call) as [c0|]; simplify_eq/=.
    exists e, (Employee.set_call (Some call) x). split; [done|].
    by rewrite list_lookup_alter_eq, Hx.
  - rewrite list_lookup_alter_ne by done. intros Hc Hs.
    destruct (Hw _ _ Hc Hs) as (self & y & Hself & Hy & Hheld).
    exists self, y. split; [done|]. split; [|done].
    rewrite list_lookup_alter_ne; [done|]. intros ->. congruence.
Qed.

Lemma back_linked_completed w call :
  back_linked w → back_linked (completed call w).
Proof.
  intros Hw call' c. unfold completed, set_calls; cbn [calls employees].
  destruct (decide (call = call')) as [<-|Hne].
  - rewrite list_lookup_alter_eq. intros Hc Hs.
    destruct (calls w !! call) as [c0|]; simplify_eq/=.
  - rewrite list_lookup_alter_ne by done. apply Hw.
Qed.

Lemma back_linked_escalated w self e call rank :
  employees w !! self = Some e → Employee.call e = Some call →
  back_linked w → back_linked (escalated self call rank w).
Proof.
  intros He Hheld Hw call' c. unfold escalated; cbn [calls employees].
  destruct (decide (call = call')) as [<-|Hne].
  - rewrite list_lookup_alter_eq. intros Hc Hs.
    destruct (calls w !! call) as [c0|]; simplify_eq/=.
  - rewrite list_lookup_alter_ne by done. intros Hc Hs.
    destruct (Hw _ _ Hc Hs) as (self' & y & Hself & Hy & Hheld').
    exists self', y. split; [done|]. split; [|done].
    rewrite list_lookup_alter_ne; [done|]. intros ->. congruence.
Qed.

Lemma back_linked_run_op o w : back_linked w → back_linked (run_op o w).
Proof.
  intros Hw. destruct o as [rank|call|self|self]; simpl.
  - by apply back_linked_new_Call.
  - destruct (dispatch_call_world w call) as [->|[(e & He & ->)| ->]];
      [done | by apply back_linked_bound | done].
  - destruct (complete_call_world w self) as [->|(e & call & _ & _ & _ & ->)];
      [done | by apply back_linked_completed].
  - destruct (escalate_call_world w self)
      as [->|(e & call & rank & He & Hheld & _ & _ & ->)];
      [done | by eapply back_linked_escalated].
Qed.

Lemma back_linked_run_ops os w : back_linked w → back_linked (run_ops os w).
Proof.
  revert w. induction os as [|o os IH]; intros w Hw; [done|].
  apply IH. by apply back_linked_run_op.
Qed.

(** ** What [bound], [completed] and [escalated] contain *)

Lemma bound_slot w self call :
  is_Some (employees w !! self) → slot (bound self call w) self = Some (Some call).
Proof.
  intros [e He]. unfold slot, bound; cbn [employees].
  by rewrite list_lookup_alter_eq, He.
Qed.

Lemma bound_slot_ne w self call e :
  e ≠ self → slot (bound self call w) e = slot w e.
Proof.
  intros Hne. unfold slot, bound; cbn [employees].
  by rewrite list_lookup_alter_ne.
Qed.

Lemma bound_call w self call c :
  calls w !! call = Some c →
  calls (bound self call w) !! call = Some (Call.mk IN_PROGRESS (Call.rank c) (Some self)).
Proof.
  intros Hc. unfold bound; cbn [calls]. by rewrite list_lookup_alter_eq, Hc.
Qed.

Lemma escalated_slot w self call rank :
  is_Some (employees w !! self) → slot (escalated self call rank w) self = Some None.
Proof.
  intros [e He]. unfold slot, escalated; cbn [employees].
  by rewrite list_lookup_alter_eq, He.
Qed.

Lemma escalated_slot_ne w self call rank e :
  e ≠ self → slot (escalated self call rank w) e = slot w e.
Proof.
  intros Hne. unfold slot, escalated; cbn [employees].
  by rewrite list_lookup_alter_ne.
Qed.

Lemma escalated_call w self call rank c :
  calls w !! call = Some c →
  calls (escalated self call rank w) !! call
    = Some (Call.mk READY (IsRank rank) (Call.employee c)).
Proof.
  intros Hc. unfold escalated; cbn [calls]. by rewrite list_lookup_alter_eq, Hc.
Qed.

(** ** Reachable stores *)

Lemma reachable_run_ops os w0 : initial w0 → reachable (run_ops os w0).
Proof. intros H. by exists w0, os. Qed.

Lemma initial_one_operator : initial one_operator.
Proof. repeat constructor. Qed.

Lemma initial_two_operators : initial two_operators.
Proof. repeat constructor. Qed.

Lemma initial_operator_and_supervisor : initial operator_and_supervisor.
Proof. repeat constructor. Qed.

Lemma initial_one_director : initial one_director.
Proof. repeat constructor. Qed.

(** * The claims *)

(** C1 (evaluation of the routing search where it departs from the claim):
    the search starts at the pool of the call's rank and then goes down, not
    up.  With one free Operator and nobody else, a call of rank SUPERVISOR is
    bound to the Operator, whose rank is below the call's; with one free
    Director and nobody else, a call of rank OPERATOR finds no employee,
    although the Director is free and of a rank above the call's. *)
Theorem C1_search_descends_from_the_call_rank :
  (_dispatch_call_based_on_rank 0 supervisor_call_for_operator
     = (Returned (Some 0), bound 0 0 supervisor_call_for_operator) ∧
   Call.rank <$> calls supervisor_call_for_operator !! 0 = Some (IsRank SUPERVISOR) ∧
   Employee.rank <$> employees supervisor_call_for_operator !! 0 = Some OPERATOR ∧
   rank_lt OPERATOR SUPERVISOR ∧
   slot (bound 0 0 supervisor_call_for_operator) 0 = Some (Some 0)) ∧
  (_dispatch_call_based_on_rank 0 operator_call_for_director
     = (Returned None, operator_call_for_director) ∧
   Call.rank <$> calls operator_call_for_director !! 0 = Some (IsRank OPERATOR) ∧
   can_serve operator_call_for_director OPERATOR 0 = true).
Proof. repeat split. Qed.

(** C2 (refuted as stated): two Operators hold calls 0 and 1, call 2 waits in
    the queue, and the second Operator has escalated its call, so it is free
    and call 2 is the first routable call of the queue.  The first Operator
    completes its call: call 2 is still queued, still READY, and the free
    Operator still holds nothing. *)
Lemma C2_completion_leaves_routable_call_queued :
  reachable waiting_call_and_free_operator ∧
  slot waiting_call_and_free_operator 0 = Some (Some 0) ∧
  (complete_call 0 waiting_call_and_free_operator).1 = Returned tt ∧
  first_routable waiting_call_and_free_operator = Some 2 ∧
  first_routable (complete_call 0 waiting_call_and_free_operator).2 = Some 2 ∧
  queued_calls (center (complete_call 0 waiting_call_and_free_operator).2) = [2] ∧
  Call.state <$> calls (complete_call 0 waiting_call_and_free_operator).2 !! 2
    = Some READY ∧
  slot (complete_call 0 waiting_call_and_free_operator).2 1 = Some None.
Proof.
  split; [|by repeat split].
  apply reachable_run_ops, initial_two_operators.
Qed.

(** C2 (as amended): when an employee completes a call, the completion hook
    does nothing: [notify_call_completed] returns with the store as it was.
    After [complete_call] the queue and the pools are the same, every
    employee other than the completing one is unchanged, every call other
    than the completed one is unchanged, and nobody has been handed a call:
    an employee that holds a call afterwards held that call before.  No
    queued call is assigned or removed. *)
Theorem C2_completion_drains_nothing w self :
  (∀ call, notify_call_completed call w = (Returned tt, w)) ∧
  center (complete_call self w).2 = center w ∧
  (∀ e, e ≠ self →
        employees (complete_call self w).2 !! e = employees w !! e) ∧
  (∀ q, slot w self ≠ Some (Some q) →
        calls (complete_call self w).2 !! q = calls w !! q) ∧
  (∀ e c, slot (complete_call self w).2 e = Some (Some c) →
          slot w e = Some (Some c)).
Proof.
  split; [done|].
  destruct (complete_call_world w self) as [->|(e & call & He & Hheld & _ & ->)];
    [done|].
  split; [done|]. split; [done|]. split; [|done].
  intros q Hq. unfold completed, set_calls; cbn [calls].
  apply list_lookup_alter_ne. intros ->. apply Hq.
  unfold slot. by rewrite He; simpl; rewrite Hheld.
Qed.

(** C3 (refuted as stated): an Operator holds call 0 and a Supervisor is
    free.  The Operator escalates: the call is READY at rank SUPERVISOR, the
    free Supervisor is able to serve it, and yet nobody holds the call and
    the queue is empty. *)
Lemma C3_escalated_call_is_dropped :
  reachable operator_on_call_supervisor_free ∧
  slot operator_on_call_supervisor_free 0 = Some (Some 0) ∧
  (escalate_call 0 operator_on_call_supervisor_free).1 = Returned tt ∧
  calls (escalate_call 0 operator_on_call_supervisor_free).2 !! 0
    = Some (Call.mk READY (IsRank SUPERVISOR) (Some 0)) ∧
  can_serve (escalate_call 0 operator_on_call_supervisor_free).2 SUPERVISOR 1 = true ∧
  Employee.call <$> employees (escalate_call 0 operator_on_call_supervisor_free).2
    = [None; None] ∧
  queued_calls (center (escalate_call 0 operator_on_call_supervisor_free).2) = [].
Proof.
  split; [|by repeat split].
  apply reachable_run_ops, initial_operator_and_supervisor.
Qed.

(** C3 (as amended): the escalation hook does nothing.  When an Operator or
    a Supervisor escalates the call it holds, [notify_call_escalated] returns
    with the store as it was, the routing search is not run again: the queue
    is the same, the escalating employee's slot is empty and every other
    employee holds what it held.  So a call that no other employee held and
    that was not queued is afterwards in no slot and not in the queue. *)
Theorem C3_escalation_reroutes_nothing w self e call rank :
  employees w !! self = Some e → Employee.call e = Some call →
  is_Some (calls w !! call) →
  next_rank (Class_rank (Employee.class e)) = Some rank →
  notify_call_escalated (Some call) (escalate_call self w).2
    = (Returned tt, (escalate_call self w).2) ∧
  queued_calls (center (escalate_call self w).2) = queued_calls (center w) ∧
  slot (escalate_call self w).2 self = Some None ∧
  (∀ e', e' ≠ self → slot (escalate_call self w).2 e' = slot w e') ∧
  ((∀ e', e' ≠ self → slot w e' ≠ Some (Some call)) →
   call ∉ queued_calls (center w) →
   (∀ e', slot (escalate_call self w).2 e' ≠ Some (Some call)) ∧
   call ∉ queued_calls (center (escalate_call self w).2)).
Proof.
  intros He Hheld Hc Hr.
  rewrite (escalate_call_held _ _ _ _ _ He Hheld Hc Hr); cbn [snd].
  assert (Hself : slot (escalated self call rank w) self = Some None)
    by (apply escalated_slot; eauto).
  split; [done|]. split; [done|]. split; [done|]. split.
  - intros e' Hne. by apply escalated_slot_ne.
  - intros Hothers Hqueue. split; [|done].
    intros e'. destruct (decide (e' = self)) as [->|Hne].
    + by rewrite Hself.
    + rewrite escalated_slot_ne by done. by apply Hothers.
Qed.

Lemma C3_witness :
  queued_calls (center (escalate_call 0 operator_on_call_supervisor_free).2)
    = queued_calls (center operator_on_call_supervisor_free) ∧
  slot (escalate_call 0 operator_on_call_supervisor_free).2 0 = Some None ∧
  (∀ e', slot (escalate_call 0 operator_on_call_supervisor_free).2 e' ≠ Some (Some 0)) ∧
  0 ∉ queued_calls (center (escalate_call 0 operator_on_call_supervisor_free).2).
Proof.
  pose proof (C3_escalation_reroutes_nothing operator_on_call_supervisor_free 0
                (Employee.mk 1 "Ada" OPERATOR (Some 0) Operator) 0 SUPERVISOR
                eq_refl eq_refl (mk_is_Some _ _ eq_refl) eq_refl)
    as (_ & Hq & Hs & _ & Hdrop).
  split; [exact Hq|]. split; [exact Hs|].
  apply Hdrop.
  - intros [|[|e']] Hne; [done| |].
    + discriminate.
    + discriminate.
  - intros H. inversion H.
Defined.

(** C4 (refuted as stated): an Operator takes call 0 and completes it.  The
    call is COMPLETE, not in progress, and its [employee] is still set. *)
Lemma C4_completed_call_keeps_its_employee :
  reachable operator_done ∧
  calls operator_done !! 0 = Some (Call.mk COMPLETE (IsRank OPERATOR) (Some 0)) ∧
  ¬ (Call.state (Call.mk COMPLETE (IsRank OPERATOR) (Some 0)) = IN_PROGRESS
     ↔ is_Some (Call.employee (Call.mk COMPLETE (IsRank OPERATOR) (Some 0)))).
Proof.
  split; [|split].
  - apply reachable_run_ops, initial_one_operator.
  - reflexivity.
  - intros [_ H]. simpl in H. discriminate H. by eexists.
Qed.

(** C4 (as amended): after any sequence of the operations [Call(rank)],
    [dispatch_call], [complete_call] and [escalate_call] on a newly built
    centre, every call whose state is IN_PROGRESS has its [employee] set, and
    that employee's [call] is this very call.  The converse is left out: the
    program never clears [employee]. *)
Theorem C4_call_in_progress_is_linked w call c :
  reachable w → calls w !! call = Some c → Call.state c = IN_PROGRESS →
  ∃ self e, Call.employee c = Some self ∧ employees w !! self = Some e ∧
            Employee.call e = Some call.
Proof.
  intros (w0 & os & Hinit & ->) Hc Hs.
  exact (back_linked_run_ops os w0 (back_linked_initial w0 Hinit) call c Hc Hs).
Qed.

Lemma C4_witness :
  ∃ self e,
    Call.employee (Call.mk IN_PROGRESS (IsRank OPERATOR) (Some 0)) = Some self ∧
    employees operator_on_call !! self = Some e ∧ Employee.call e = Some 0.
Proof.
  refine (C4_call_in_progress_is_linked operator_on_call 0
            (Call.mk IN_PROGRESS (IsRank OPERATOR) (Some 0)) _ eq_refl eq_refl).
  apply reachable_run_ops, initial_one_operator.
Defined.

(** C5 (refuted as stated): an Operator holds call 0 and is handed call 1.
    [take_call] returns, it does not raise, and the Operator's slot now names
    call 1, while call 0 is still in progress and still names the Operator.
    Handing it call 0 again, a call that is not READY, returns as well. *)
Lemma C5_busy_employee_takes_another_call :
  slot operator_on_call_and_new_call 0 = Some (Some 0) ∧
  take_call 0 1 operator_on_call_and_new_call
    = (Returned tt, bound 0 1 operator_on_call_and_new_call) ∧
  slot (bound 0 1 operator_on_call_and_new_call) 0 = Some (Some 1) ∧
  calls (bound 0 1 operator_on_call_and_new_call) !! 0
    = Some (Call.mk IN_PROGRESS (IsRank OPERATOR) (Some 0)) ∧
  Call.state <$> calls operator_on_call_and_new_call !! 0 = Some IN_PROGRESS ∧
  (take_call 0 0 operator_on_call_and_new_call).1 = Returned tt.
Proof. repeat split. Qed.

(** C5 (as amended): [take_call] checks nothing and never raises: for every
    employee, holding a call or not, and every call, in whatever state, it
    performs the assignment, overwriting the employee's one slot.  That the
    slot is empty is checked by the caller [_dispatch_to_available] alone. *)
Theorem C5_take_call_is_unguarded w self call c :
  is_Some (employees w !! self) → calls w !! call = Some c →
  take_call self call w = (Returned tt, bound self call w) ∧
  slot (bound self call w) self = Some (Some call) ∧
  calls (bound self call w) !! call
    = Some (Call.mk IN_PROGRESS (Call.rank c) (Some self)).
Proof.
  intros He Hc. split; [|split].
  - apply take_call_bound; eauto.
  - by apply bound_slot.
  - by apply bound_call.
Qed.

Lemma C5_witness :
  busy operator_on_call_and_new_call 0 ∧
  take_call 0 1 operator_on_call_and_new_call
    = (Returned tt, bound 0 1 operator_on_call_and_new_call) ∧
  slot (bound 0 1 operator_on_call_and_new_call) 0 = Some (Some 1) ∧
  calls (bound 0 1 operator_on_call_and_new_call) !! 1
    = Some (Call.mk IN_PROGRESS (IsRank OPERATOR) (Some 0)).
Proof.
  split; [by exists 0|].
  exact (C5_take_call_is_unguarded operator_on_call_and_new_call 0 1
           (Call.__init__ (IsRank OPERATOR)) (mk_is_Some _ _ eq_refl) eq_refl).
Defined.




(** C7 (refuted as stated): in a centre with one Operator and nobody else, a
    call of rank DIRECTOR is dispatched and lands with the Operator.  The
    Operator escalates it: the call's rank is now SUPERVISOR, below the rank
    it had. *)
Lemma C7_escalation_lowers_the_rank :
  reachable operator_on_director_call ∧
  slot operator_on_director_call 0 = Some (Some 0) ∧
  Call.rank <$> calls operator_on_director_call !! 0 = Some (IsRank DIRECTOR) ∧
  (escalate_call 0 operator_on_director_call).1 = Returned tt ∧
  Call.rank <$> calls (escalate_call 0 operator_on_director_call).2 !! 0
    = Some (IsRank SUPERVISOR) ∧
  rank_lt SUPERVISOR DIRECTOR.
Proof.
  split; [|by repeat split].
  apply reachable_run_ops, initial_one_operator.
Qed.

(** C7 (as amended): an escalation writes the rank one step above the
    escalating employee's own rank, whatever rank the call had.  So when an
    Operator or a Supervisor whose rank is not below the call's escalates,
    the call's rank does not decrease: it strictly increases, and when the
    employee's rank equals the call's it increases by exactly one step. *)
Theorem C7_escalation_raises_from_employee_rank w self e call c r :
  employees w !! self = Some e → Employee.class e ≠ Director →
  Employee.rank e = Class_rank (Employee.class e) →
  Employee.call e = Some call → calls w !! call = Some c →
  Call.rank c = IsRank r → rank_le r (Employee.rank e) →
  ∃ r' c', (escalate_call self w).1 = Returned tt ∧
    calls (escalate_call self w).2 !! call = Some c' ∧
    Call.rank c' = IsRank r' ∧
    next_rank (Employee.rank e) = Some r' ∧
    rank_lt r r' ∧
    (r = Employee.rank e → next_rank r = Some r').
Proof.
  intros He Hk Hrank Hheld Hc Hr Hle.
  destruct (next_rank (Employee.rank e)) as [r'|] eqn:Hn.
  2:{ rewrite Hrank in Hn. by destruct (Employee.class e). }
  exists r', (Call.mk READY (IsRank r') (Call.employee c)).
  assert (Hrun : escalate_call self w = (Returned tt, escalated self call r' w)).
  { apply (escalate_call_held _ _ e); eauto. by rewrite <- Hrank. }
  rewrite Hrun; cbn [fst snd].
  split; [done|]. split; [by apply escalated_call|]. split; [done|].
  split; [done|]. split; [|by intros ->].
  unfold rank_le, rank_lt in *.
  destruct (Employee.rank e), r, r'; simpl in *; simplify_eq; lia.
Qed.

Lemma C7_witness :
  ∃ r' c', (escalate_call 0 operator_on_call).1 = Returned tt ∧
    calls (escalate_call 0 operator_on_call).2 !! 0 = Some c' ∧
    Call.rank c' = IsRank r' ∧
    next_rank OPERATOR = Some r' ∧
    rank_lt OPERATOR r' ∧
    (OPERATOR = OPERATOR → next_rank OPERATOR = Some r').
Proof.
  refine (C7_escalation_raises_from_employee_rank operator_on_call 0
            (Employee.mk 1 "Ada" OPERATOR (Some 0) Operator) 0
            (Call.mk IN_PROGRESS (IsRank OPERATOR) (Some 0)) OPERATOR
            eq_refl _ eq_refl eq_refl eq_refl eq_refl _).
  - discriminate.
  - unfold rank_le; simpl; lia.
Defined.

(** C8 (evaluation of [complete_call] where it departs from the claim): an
    Operator holds call 0 and completes it.  The call is COMPLETE, and the
    Operator's slot still names it: the slot is not emptied, so the next call
    that is dispatched finds the Operator busy and goes to the queue. *)
Theorem C8_complete_call_keeps_the_slot :
  slot operator_on_call 0 = Some (Some 0) ∧
  complete_call 0 operator_on_call = (Returned tt, completed 0 operator_on_call) ∧
  calls (completed 0 operator_on_call) !! 0
    = Some (Call.mk COMPLETE (IsRank OPERATOR) (Some 0)) ∧
  slot (completed 0 operator_on_call) 0 = Some (Some 0) ∧
  queued_calls (center (run_ops [NewCall (IsRank OPERATOR); DispatchCall 1]
                                (completed 0 operator_on_call))) = [1].
Proof. repeat split. Qed.

(** C9: [escalate_call] of a Director always raises [NotImplementedError],
    and nothing has changed when it does: the call the Director holds keeps
    its state, its rank and its employee, and the Director keeps the call. *)
Theorem C9_director_cannot_escalate w self e :
  employees w !! self = Some e → Employee.class e = Director →
  escalate_call self w = (Raised NotImplementedError, w).
Proof. apply escalate_call_Director. Qed.

Lemma C9_witness :
  slot director_on_call 0 = Some (Some 0) ∧
  calls director_on_call !! 0 = Some (Call.mk IN_PROGRESS (IsRank DIRECTOR) (Some 0)) ∧
  escalate_call 0 director_on_call = (Raised NotImplementedError, director_on_call).
Proof.
  split; [reflexivity|]. split; [reflexivity|].
  exact (C9_director_cannot_escalate director_on_call 0
           (Employee.mk 3 "Dee" DIRECTOR (Some 0) Director) eq_refl eq_refl).
Defined.

(** C10: [_dispatch_to_available] binds the call to the first employee of the
    list, in list order, whose [call] is [None], and returns that employee;
    whenever it returns an employee, that employee's slot was empty; and when
    every employee of the list is busy it returns [None] and leaves the whole
    store, so every slot and the call, as it was. *)
Theorem C10_dispatch_to_available_first_free w call es :
  is_Some (calls w !! call) →
  (∀ pre e post, es = pre ++ e :: post → Forall (busy w) pre → free w e →
     _dispatch_to_available call es w = (Returned (Some e), bound e call w) ∧
     slot (bound e call w) e = Some (Some call)) ∧
  (∀ e w', _dispatch_to_available call es w = (Returned (Some e), w') →
     free w e ∧ e ∈ es ∧ w' = bound e call w) ∧
  (Forall (busy w) es → _dispatch_to_available call es w = (Returned None, w)).
Proof.
  intros Hcall. split; [|split].
  - intros pre e post -> Hpre He. split.
    + by apply _dispatch_to_available_free.
    + apply bound_slot. apply free_lookup in He as (x & -> & _). eauto.
  - intros e w' Hrun.
    destruct (first_not_busy w es) as [H|(pre & e' & post & -> & Hpre & [He|He])].
    + by rewrite _dispatch_to_available_busy in Hrun.
    + rewrite _dispatch_to_available_free in Hrun by done.
      simplify_eq. repeat split; [done|].
      apply elem_of_app. right. by left.
    + by rewrite _dispatch_to_available_dangling in Hrun.
  - apply _dispatch_to_available_busy.
Qed.

Lemma C10_witness :
  is_Some (calls first_operator_on_call !! 1) ∧
  busy first_operator_on_call 0 ∧ free first_operator_on_call 1 ∧
  _dispatch_to_available 1 [0; 1] first_operator_on_call
    = (Returned (Some 1), bound 1 1 first_operator_on_call) ∧
  _dispatch_to_available 1 [0] first_operator_on_call
    = (Returned None, first_operator_on_call).
Proof.
  assert (Hcall : is_Some (calls first_operator_on_call !! 1))
    by (eexists; reflexivity).
  assert (Hbusy : busy first_operator_on_call 0) by (by exists 0).
  assert (Hfree : free first_operator_on_call 1) by reflexivity.
  split; [exact Hcall|]. split; [exact Hbusy|]. split; [exact Hfree|]. split.
  - refine (proj1 (proj1 (C10_dispatch_to_available_first_free
                            first_operator_on_call 1 [0; 1] Hcall)
                     [0] 1 [] eq_refl _ Hfree)).
    by constructor.
  - refine (proj2 (proj2 (C10_dispatch_to_available_first_free
                            first_operator_on_call 1 [0] Hcall)) _).
    by constructor.
Defined.

(** * Further properties of the code *)

(** ** The routing search as one pass over a list *)

Lemma _dispatch_to_available_None_world call es w w' :
  _dispatch_to_available call es w = (Returned None, w') → w' = w.
Proof.
  induction es as [|e es IH]; simpl; [by intros [= <-]|].
  unfold mbind, Py_bind, load_employee.
  destruct (employees w !! e) as [x|]; [|done].
  destruct (Employee.call x); [done|].
  by destruct (take_call e call w) as [[[]| |] ?].
Qed.

Lemma _dispatch_to_available_app call l1 l2 w :
  _dispatch_to_available call (l1 ++ l2) w =
    match _dispatch_to_available call l1 w with
    | (Returned None, w') => _dispatch_to_available call l2 w'
    | r => r
    end.
Proof.
  induction l1 as [|e l1 IH]; simpl; [done|].
  unfold mbind, Py_bind, load_employee.
  destruct (employees w !! e) as [x|]; [|done].
  destruct (Employee.call x); [done|].
  by destruct (take_call e call w) as [[[]| |] ?].
Qed.

Lemma or_else_search call a b l1 l2 w :
  a w = _dispatch_to_available call l1 w →
  b w = _dispatch_to_available call l2 w →
  or_else a b w = _dispatch_to_available call (l1 ++ l2) w.
Proof.
  intros Ha Hb. rewrite _dispatch_to_available_app.
  unfold or_else, mbind, Py_bind. rewrite Ha.
  destruct (_dispatch_to_available call l1 w) as [[[e|]| |] w'] eqn:Hrun; try done.
  by apply _dispatch_to_available_None_world in Hrun as ->.
Qed.

Lemma _dispatch_call_based_on_rank_search w call c r :
  calls w !! call = Some c → Call.rank c = IsRank r →
  _dispatch_call_based_on_rank call w
    = _dispatch_to_available call (search_order r (center w)) w.
Proof.
  intros Hc Hr. unfold _dispatch_call_based_on_rank.
  rewrite (bind_returned _ _ _ _ _ (load_call_Some _ _ _ Hc)), Hr.
  destruct r; repeat case_decide; try done; simpl.
  - by apply or_else_search.
  - rewrite (assoc_L (++)). apply or_else_search; [|done].
    by apply or_else_search.
Qed.

Lemma rank_recognized r :
  IsRank r ∈ [IsRank OPERATOR; IsRank SUPERVISOR; IsRank DIRECTOR].
Proof. destruct r; repeat constructor. Qed.

Lemma rank_unrecognized v :
  NotRank v ∉ [IsRank OPERATOR; IsRank SUPERVISOR; IsRank DIRECTOR].
Proof.
  intros H. repeat (apply elem_of_cons in H as [?|H]; [done|]).
  by apply elem_of_nil in H.
Qed.

Lemma dispatch_call_search w call c r :
  calls w !! call = Some c → Call.rank c = IsRank r →
  dispatch_call call w =
    match _dispatch_to_available call (search_order r (center w)) w with
    | (Returned (Some _), w') => (Returned tt, w')
    | (Returned None, w') => queued_calls_append call w'
    | (Raised e, w') => (Raised e, w')
    | (Stuck, w') => (Stuck, w')
    end.
Proof.
  intros Hc Hr. unfold dispatch_call.
  rewrite (bind_returned _ _ _ _ _ (load_call_Some _ _ _ Hc)), Hr.
  case_decide as Hin; [|by destruct Hin; apply rank_recognized].
  unfold mbind, Py_bind. rewrite (_dispatch_call_based_on_rank_search _ _ _ _ Hc Hr).
  by destruct (_dispatch_to_available _ _ w) as [[[]| |] ?].
Qed.

Lemma dispatch_call_unrecognized w call c v :
  calls w !! call = Some c → Call.rank c = NotRank v →
  dispatch_call call w = (Raised ValueError, w).
Proof.
  intros Hc Hr. unfold dispatch_call.
  rewrite (bind_returned _ _ _ _ _ (load_call_Some _ _ _ Hc)), Hr.
  case_decide as Hin; [|done]. by apply rank_unrecognized in Hin.
Qed.

(** X1: [dispatch_call] of a call whose rank is not a member of [Rank] raises
    [ValueError], and the store is as it was: nobody took the call and it
    was not queued. *)
Theorem X1_dispatch_call_rejects_unknown_rank w call c v :
  calls w !! call = Some c → Call.rank c = NotRank v →
  dispatch_call call w = (Raised ValueError, w).
Proof. apply dispatch_call_unrecognized. Qed.

Lemma X1_witness :
  dispatch_call 0 unranked_call_arrives = (Raised ValueError, unranked_call_arrives).
Proof.
  exact (X1_dispatch_call_rejects_unknown_rank unranked_call_arrives 0
           (Call.__init__ (NotRank 7)) 7 eq_refl eq_refl).
Defined.

(** X2: for a call whose rank is a member of [Rank], the routing search is
    one first-fit pass over a single list: the pool of the call's rank
    followed by the pools of the ranks below it, from the nearest down to the
    operators. *)
Theorem X2_routing_is_one_pass_down_the_pools w call c r :
  calls w !! call = Some c → Call.rank c = IsRank r →
  _dispatch_call_based_on_rank call w
    = _dispatch_to_available call (search_order r (center w)) w ∧
  search_order r (center w) =
    match r with
    | OPERATOR => operators (center w)
    | SUPERVISOR => supervisors (center w) ++ operators (center w)
    | DIRECTOR =>
        directors (center w) ++ supervisors (center w) ++ operators (center w)
    end.
Proof.
  intros Hc Hr. split; [by eapply _dispatch_call_based_on_rank_search|done].
Qed.

Lemma X2_witness :
  _dispatch_call_based_on_rank 3 full_house
    = _dispatch_to_available 3 [2; 1; 0] full_house.
Proof.
  exact (proj1 (X2_routing_is_one_pass_down_the_pools full_house 3
                  (Call.__init__ (IsRank DIRECTOR)) DIRECTOR eq_refl eq_refl)).
Defined.

(** X3: when the employees tried for the call's rank are busy up to some
    employee that is free, [dispatch_call] returns with the call bound to
    that employee: it holds the call, the call is IN_PROGRESS and names it,
    and the queue is as it was. *)
Theorem X3_dispatch_call_binds_first_free w call c r pre e post :
  calls w !! call = Some c → Call.rank c = IsRank r →
  search_order r (center w) = pre ++ e :: post →
  Forall (busy w) pre → free w e →
  dispatch_call call w = (Returned tt, bound e call w) ∧
  slot (bound e call w) e = Some (Some call) ∧
  calls (bound e call w) !! call = Some (Call.mk IN_PROGRESS (IsRank r) (Some e)) ∧
  queued_calls (center (bound e call w)) = queued_calls (center w).
Proof.
  intros Hc Hr Hs Hpre He.
  rewrite (dispatch_call_search _ _ _ _ Hc Hr), Hs.
  rewrite _dispatch_to_available_free by eauto.
  split; [done|]. split; [|split; [|done]].
  - apply bound_slot. apply free_lookup in He as (x & -> & _). eauto.
  - by rewrite (bound_call _ _ _ _ Hc), Hr.
Qed.

Lemma X3_witness :
  dispatch_call 1 first_operator_on_call
    = (Returned tt, bound 1 1 first_operator_on_call) ∧
  slot (bound 1 1 first_operator_on_call) 1 = Some (Some 1).
Proof.
  pose proof (X3_dispatch_call_binds_first_free first_operator_on_call 1
                (Call.__init__ (IsRank OPERATOR)) OPERATOR [0] 1 []
                eq_refl eq_refl eq_refl) as H.
  refine (let H' := H _ _ in conj (proj1 H') (proj1 (proj2 H'))).
  - constructor; [by exists 0|constructor].
  - reflexivity.
Defined.

(** X4: when every employee tried for the call's rank is busy,
    [dispatch_call] returns with the call appended at the back of the queue
    and nothing else changed: no employee and no call is touched, the call
    keeps its state. *)
Theorem X4_dispatch_call_queues_at_the_back w call c r :
  calls w !! call = Some c → Call.rank c = IsRank r →
  Forall (busy w) (search_order r (center w)) →
  dispatch_call call w = (Returned tt, queued call w) ∧
  queued_calls (center (queued call w)) = queued_calls (center w) ++ [call] ∧
  employees (queued call w) = employees w ∧
  calls (queued call w) = calls w.
Proof.
  intros Hc Hr Hbusy.
  rewrite (dispatch_call_search _ _ _ _ Hc Hr).
  by rewrite _dispatch_to_available_busy.
Qed.

Lemma X4_witness :
  dispatch_call 3 full_house = (Returned tt, queued 3 full_house) ∧
  queued_calls (center (queued 3 full_house)) = [3].
Proof.
  pose proof (X4_dispatch_call_queues_at_the_back full_house 3
                (Call.__init__ (IsRank DIRECTOR)) DIRECTOR eq_refl eq_refl) as H.
  refine (let H' := H _ in conj (proj1 H') (proj1 (proj2 H'))).
  repeat constructor; eexists; reflexivity.
Defined.

(** ** The centre across operations *)

Lemma run_op_center o w :
  operators (center (run_op o w)) = operators (center w) ∧
  supervisors (center (run_op o w)) = supervisors (center w) ∧
  directors (center (run_op o w)) = directors (center w) ∧
  ∃ k, queued_calls (center (run_op o w)) = queued_calls (center w) ++ k.
Proof.
  destruct o as [rank|call|self|self]; simpl.
  - repeat split. exists []. by rewrite app_nil_r.
  - destruct (dispatch_call_world w call) as [->|[(e & He & ->)| ->]]; simpl;
      repeat split; try (exists []; by rewrite app_nil_r). by exists [call].
  - destruct (complete_call_world w self) as [->|(e & call & _ & _ & _ & ->)];
      repeat split; exists []; by rewrite app_nil_r.
  - destruct (escalate_call_world w self)
      as [->|(e & call & rank & _ & _ & _ & _ & ->)];
      repeat split; exists []; by rewrite app_nil_r.
Qed.

(** X5: no sequence of operations changes the three pools of the centre, and
    none removes or reorders a queued call: the queue before is a prefix of
    the queue after. *)
Theorem X5_pools_fixed_and_queue_only_grows os w :
  operators (center (run_ops os w)) = operators (center w) ∧
  supervisors (center (run_ops os w)) = supervisors (center w) ∧
  directors (center (run_ops os w)) = directors (center w) ∧
  ∃ k, queued_calls (center (run_ops os w)) = queued_calls (center w) ++ k.
Proof.
  revert w. induction os as [|o os IH]; intros w; simpl.
  { repeat split. exists []. by rewrite app_nil_r. }
  destruct (IH (run_op o w)) as (-> & -> & -> & k & ->).
  destruct (run_op_center o w) as (-> & -> & -> & k' & ->).
  repeat split. exists (k' ++ k). by rewrite (assoc_L (++)).
Qed.

(** ** Employees across operations *)

Lemma fixed_attributes_set_call v x :
  fixed_attributes (Employee.set_call v x) = fixed_attributes x.
Proof. done. Qed.

Lemma alter_set_call_attributes v self (es : list Employee.t) e :
  fixed_attributes <$> alter (Employee.set_call v) self es !! e
    = fixed_attributes <$> es !! e.
Proof.
  rewrite list_lookup_alter. case_decide as Heq; [|done]. subst.
  by destruct (es !! e).
Qed.

Lemma run_op_attributes o w e :
  fixed_attributes <$> employees (run_op o w) !! e
    = fixed_attributes <$> employees w !! e.
Proof.
  destruct o as [rank|call|self|self]; simpl.
  - done.
  - destruct (dispatch_call_world w call) as [->|[(e' & He & ->)| ->]];
      [done| |done].
    apply alter_set_call_attributes.
  - by destruct (complete_call_world w self) as [->|(? & call & _ & _ & _ & ->)].
  - destruct (escalate_call_world w self)
      as [->|(? & call & rank & _ & _ & _ & _ & ->)]; [done|].
    apply alter_set_call_attributes.
Qed.

Lemma run_ops_attributes os w e :
  fixed_attributes <$> employees (run_ops os w) !! e
    = fixed_attributes <$> employees w !! e.
Proof.
  revert w. induction os as [|o os IH]; intros w; simpl; [done|].
  by rewrite IH, run_op_attributes.
Qed.

(** X6: no sequence of operations changes an employee's [employee_id],
    [name], [rank] or class, and none adds or removes an employee: only the
    slot [call] of an employee is ever assigned. *)
Theorem X6_employee_attributes_are_fixed os w e :
  fixed_attributes <$> employees (run_ops os w) !! e
    = fixed_attributes <$> employees w !! e.
Proof. apply run_ops_attributes. Qed.

Lemma run_op_busy_slot o w e c :
  slot w e = Some (Some c) → o ≠ EscalateCall e →
  slot (run_op o w) e = Some (Some c).
Proof.
  intros Hslot Ho. destruct o as [rank|call|self|self]; simpl.
  - done.
  - destruct (dispatch_call_world w call) as [->|[(e' & He & ->)| ->]];
      [done| |done].
    rewrite bound_slot_ne; [done|]. intros ->. unfold free in He. congruence.
  - by destruct (complete_call_world w self) as [->|(? & call & _ & _ & _ & ->)].
  - destruct (escalate_call_world w self)
      as [->|(? & call & rank & _ & _ & _ & _ & ->)]; [done|].
    rewrite escalated_slot_ne; [done|]. intros ->. done.
Qed.

(** X7: an employee that holds a call keeps that very call through every
    operation except its own [escalate_call]: no dispatch gives it another
    call, its own [complete_call] does not release it, and nothing the other
    employees do touches it. *)
Theorem X7_only_own_escalation_empties_a_slot o w e c :
  slot w e = Some (Some c) → o ≠ EscalateCall e →
  slot (run_op o w) e = Some (Some c).
Proof. apply run_op_busy_slot. Qed.

Lemma X7_witness :
  slot (run_op (CompleteCall 0) operator_on_call) 0 = Some (Some 0).
Proof.
  refine (X7_only_own_escalation_empties_a_slot (CompleteCall 0) operator_on_call
            0 0 eq_refl _).
  discriminate.
Defined.

Lemma slot_class w e c k :
  slot w e = Some (Some c) → Employee.class <$> employees w !! e = Some k →
  ∃ x, employees w !! e = Some x ∧ Employee.call x = Some c ∧ Employee.class x = k.
Proof.
  unfold slot. destruct (employees w !! e) as [x|]; [|done].
  intros [= ?] [= ?]. eauto.
Qed.

Lemma run_op_class o w e :
  Employee.class <$> employees (run_op o w) !! e
    = Employee.class <$> employees w !! e.
Proof.
  pose proof (run_op_attributes o w e) as H.
  destruct (employees (run_op o w) !! e) as [x|], (employees w !! e) as [y|];
    try done.
  unfold fixed_attributes in H. simpl in *. congruence.
Qed.

(** X8: a Director that holds a call holds it for ever: after any sequence
    of operations its slot still names the same call, so it is never
    available again. *)
Theorem X8_busy_director_stays_busy os w e x c :
  employees w !! e = Some x → Employee.class x = Director →
  Employee.call x = Some c →
  slot (run_ops os w) e = Some (Some c).
Proof.
  intros Hx Hk Hc.
  assert (Hslot : slot w e = Some (Some c)) by (unfold slot; by rewrite Hx; simpl; f_equal).
  assert (Hclass : Employee.class <$> employees w !! e = Some Director)
    by (by rewrite Hx; simpl; f_equal).
  clear x Hx Hk Hc. revert w Hslot Hclass.
  induction os as [|o os IH]; intros w Hslot Hclass; simpl; [done|].
  apply IH; [|by rewrite run_op_class].
  assert (Hown : slot (run_op (EscalateCall e) w) e = Some (Some c)).
  { simpl. destruct (slot_class _ _ _ _ Hslot Hclass) as (x & Hx & _ & Hk).
    by rewrite (escalate_call_Director _ _ _ Hx Hk). }
  destruct o as [rank|call|self|self]; try (by apply run_op_busy_slot).
  destruct (decide (self = e)) as [->|Hne]; [done|].
  apply run_op_busy_slot; [done|congruence].
Qed.

Lemma X8_witness :
  slot (run_ops [CompleteCall 0; EscalateCall 0; NewCall (IsRank DIRECTOR);
                 DispatchCall 1] director_on_call) 0 = Some (Some 0).
Proof.
  exact (X8_busy_director_stays_busy
           [CompleteCall 0; EscalateCall 0; NewCall (IsRank DIRECTOR); DispatchCall 1]
           director_on_call 0 (Employee.mk 3 "Dee" DIRECTOR (Some 0) Director) 0
           eq_refl eq_refl eq_refl).
Defined.

(** ** Edge cases of the Employee methods *)

(** X9: an employee that holds no call cannot complete or escalate one:
    [complete_call] raises [AttributeError], and so does [escalate_call] of
    an Operator or a Supervisor, in both cases before anything is assigned,
    so the store is as it was. *)
Theorem X9_no_current_call_raises w self e :
  employees w !! self = Some e → Employee.call e = None →
  complete_call self w = (Raised AttributeError, w) ∧
  (Employee.class e ≠ Director →
   escalate_call self w = (Raised AttributeError, w)).
Proof.
  intros He Hidle. split.
  - by apply (complete_call_idle _ _ e).
  - intros Hk. by apply (escalate_call_idle _ _ e).
Qed.

Lemma X9_witness :
  complete_call 0 one_operator = (Raised AttributeError, one_operator) ∧
  escalate_call 0 one_operator = (Raised AttributeError, one_operator).
Proof.
  pose proof (X9_no_current_call_raises one_operator 0
                (Employee.__init__ Operator 1 "Ada") eq_refl eq_refl) as [H1 H2].
  split; [exact H1|]. apply H2. discriminate.
Defined.

Lemma complete_call_cases w self :
  complete_call self w = (Stuck, w) ∨
  complete_call self w = (Raised AttributeError, w) ∨
  ∃ e call, employees w !! self = Some e ∧ Employee.call e = Some call ∧
            is_Some (calls w !! call) ∧
            complete_call self w = (Returned tt, completed call w).
Proof.
  destruct (employees w !! self) as [e|] eqn:He.
  - destruct (Employee.call e) as [call|] eqn:Hcall.
    + destruct (calls w !! call) as [c|] eqn:Hc.
      * right; right. exists e, call. repeat split; [done..|eauto|].
        apply (complete_call_held _ _ e); eauto.
      * left. unfold complete_call.
        rewrite (bind_returned _ _ _ _ _ (self_call_Some _ _ _ _ He Hcall)).
        unfold update_call, mbind, Py_bind. by rewrite Hc.
    + right; left. by apply (complete_call_idle _ _ e).
  - left. unfold complete_call.
    by rewrite (bind_stuck _ _ _ _ (self_call_dangling _ _ He)).
Qed.

Lemma is_Some_lookup_alter {A} (f : A → A) (l : list A) i j :
  is_Some (l !! j) → is_Some (alter f i l !! j).
Proof. rewrite !lookup_lt_is_Some. by rewrite length_alter. Qed.

Lemma completed_completed w call :
  completed call (completed call w) = completed call w.
Proof.
  unfold completed, set_calls; cbn [employees calls center]. f_equal.
  rewrite list_alter_alter_eq. by apply list_alter_ext.
Qed.

(** X10: completing twice is completing once.  [complete_call] leaves the
    employee holding the call, so a second [complete_call] does not raise: it
    returns, and the store is the one the first left. *)
Theorem X10_complete_call_twice w self :
  (complete_call self;; complete_call self) w = complete_call self w.
Proof.
  destruct (complete_call_cases w self)
    as [H|[H|(e & call & He & Hheld & Hc & H)]].
  - by rewrite (bind_stuck _ _ _ _ H).
  - by rewrite (bind_raised _ _ _ _ _ H).
  - rewrite (bind_returned _ _ _ _ _ H), H.
    rewrite (complete_call_held (completed call w) self e call He Hheld).
    + by rewrite completed_completed.
    + by apply is_Some_lookup_alter.
Qed.

Lemma escalated_completed w self call rank :
  escalated self call rank (completed call w) = escalated self call rank w.
Proof.
  unfold escalated, completed, set_calls; cbn [employees calls center]. f_equal.
  rewrite list_alter_alter_eq. by apply list_alter_ext.
Qed.

(** X11: completing a call does not end it.  An Operator or a Supervisor
    that has completed its call still holds it and can escalate it:
    [complete_call] followed by [escalate_call] leaves exactly the store that
    [escalate_call] alone leaves, with the call READY again at the raised
    rank. *)
Theorem X11_escalate_after_complete w self e :
  employees w !! self = Some e → Employee.class e ≠ Director →
  (∀ call, Employee.call e = Some call → is_Some (calls w !! call)) →
  (complete_call self;; escalate_call self) w = escalate_call self w.
Proof.
  intros He Hk Halloc. destruct (Employee.call e) as [call|] eqn:Hheld.
  - assert (Hc : is_Some (calls w !! call)) by eauto.
    destruct (next_rank (Class_rank (Employee.class e))) as [rank|] eqn:Hr.
    2:{ by destruct (Employee.class e). }
    rewrite (bind_returned _ _ _ _ _ (complete_call_held _ _ _ _ He Hheld Hc)).
    rewrite (escalate_call_held w self e call rank) by done.
    rewrite (escalate_call_held (completed call w) self e call rank He Hheld);
      [|by apply is_Some_lookup_alter|done].
    by rewrite escalated_completed.
  - rewrite (bind_raised _ _ _ _ _ (complete_call_idle _ _ _ He Hheld)).
    by rewrite (escalate_call_idle _ _ _ He Hheld Hk).
Qed.

Lemma X11_witness :
  (complete_call 0;; escalate_call 0) operator_on_call
    = escalate_call 0 operator_on_call ∧
  calls (escalate_call 0 operator_on_call).2 !! 0
    = Some (Call.mk READY (IsRank SUPERVISOR) (Some 0)).
Proof.
  split; [|reflexivity].
  refine (X11_escalate_after_complete operator_on_call 0
            (Employee.mk 1 "Ada" OPERATOR (Some 0) Operator) eq_refl _ _).
  - discriminate.
  - intros call [= <-]. by eexists.
Defined.

Lemma alter_fixpoint {A} (f : A → A) (l : list A) i x :
  l !! i = Some x → f x = x → alter f i l = l.
Proof.
  intros Hx Hf. apply list_eq. intros j. rewrite list_lookup_alter.
  case_decide; [|done]. subst. rewrite Hx. simpl. by rewrite Hf.
Qed.

(** X12: taking a call and escalating it gives the employee back as it was.
    When a free Operator or Supervisor takes a call and then escalates it,
    every employee object and the centre are as before; only the call has
    changed: it is READY at the rank above the employee's and names the
    employee. *)
Theorem X12_take_then_escalate_restores_employee w self e call c rank :
  employees w !! self = Some e → Employee.call e = None →
  calls w !! call = Some c →
  next_rank (Class_rank (Employee.class e)) = Some rank →
  ∃ w', (take_call self call;; escalate_call self) w = (Returned tt, w') ∧
    employees w' = employees w ∧ center w' = center w ∧
    calls w' = alter (λ _, Call.mk READY (IsRank rank) (Some self)) call (calls w).
Proof.
  intros He Hidle Hc Hr.
  exists (escalated self call rank (bound self call w)).
  rewrite (bind_returned _ _ _ _ _
             (take_call_bound w self call (mk_is_Some _ _ He) (mk_is_Some _ _ Hc))).
  rewrite (escalate_call_held (bound self call w) self
             (Employee.set_call (Some call) e) call rank).
  - split; [done|]. unfold escalated, bound; cbn [employees calls center].
    split; [|split; [done|]].
    + rewrite list_alter_alter_eq. apply (alter_fixpoint _ _ _ e); [done|].
      destruct e; simpl in *. by rewrite Hidle.
    + rewrite list_alter_alter_eq. by apply list_alter_ext.
  - unfold bound; cbn [employees]. by rewrite list_lookup_alter_eq, He.
  - done.
  - unfold bound; cbn [calls]. apply is_Some_lookup_alter. eauto.
  - done.
Qed.

Lemma X12_witness :
  ∃ w', (take_call 0 0;; escalate_call 0) supervisor_call_for_operator
          = (Returned tt, w') ∧
    employees w' = employees supervisor_call_for_operator ∧
    center w' = center supervisor_call_for_operator ∧
    calls w' = alter (λ _, Call.mk READY (IsRank SUPERVISOR) (Some 0)) 0
                     (calls supervisor_call_for_operator).
Proof.
  exact (X12_take_then_escalate_restores_employee supervisor_call_for_operator 0
           (Employee.__init__ Operator 1 "Ada") 0
           (Call.__init__ (IsRank SUPERVISOR)) SUPERVISOR
           eq_refl eq_refl eq_refl eq_refl).
Defined.

(** X13: a call whose rank is a member of [Rank] is never refused: when all
    the employees listed in the pools tried for its rank are objects,
    [dispatch_call] returns, it does not raise. *)
Theorem X13_dispatch_call_accepts_every_rank w call c r :
  calls w !! call = Some c → Call.rank c = IsRank r →
  Forall (λ e, is_Some (employees w !! e)) (search_order r (center w)) →
  (dispatch_call call w).1 = Returned tt.
Proof.
  intros Hc Hr Halloc. rewrite (dispatch_call_search _ _ _ _ Hc Hr).
  destruct (first_not_busy w (search_order r (center w)))
    as [H|(pre & e & post & Hs & Hpre & [He|He])].
  - by rewrite _dispatch_to_available_busy.
  - rewrite Hs, _dispatch_to_available_free by eauto. done.
  - rewrite Hs in Halloc. apply Forall_app in Halloc as [_ Halloc].
    apply Forall_cons in Halloc as [[? Halloc] _]. congruence.
Qed.

Lemma X13_witness :
  (dispatch_call 3 full_house).1 = Returned tt.
Proof.
  refine (X13_dispatch_call_accepts_every_rank full_house 3
            (Call.__init__ (IsRank DIRECTOR)) DIRECTOR eq_refl eq_refl _).
  repeat constructor; by eexists.
Defined.

(** ** Calls that were never taken *)

Lemma dispatch_call_cases w call :
  (dispatch_call call w).2 = w ∨
  ∃ c r, calls w !! call = Some c ∧ Call.rank c = IsRank r ∧
    ((∃ e, free w e ∧ (dispatch_call call w).2 = bound e call w) ∨
     (dispatch_call call w).2 = queued call w).
Proof.
  destruct (calls w !! call) as [c|] eqn:Hc.
  2:{ left. unfold dispatch_call.
      by rewrite (bind_stuck _ _ _ _ (load_call_None _ _ Hc)). }
  destruct (Call.rank c) as [r|v] eqn:Hr.
  2:{ left. by rewrite (dispatch_call_unrecognized _ _ _ _ Hc Hr). }
  rewrite (dispatch_call_search _ _ _ _ Hc Hr).
  destruct (first_not_busy w (search_order r (center w)))
    as [H|(pre & e & post & Hs & Hpre & [He|He])].
  - right. exists c, r. repeat split; [done..|]. right.
    by rewrite _dispatch_to_available_busy.
  - right. exists c, r. repeat split; [done..|]. left. exists e. split; [done|].
    rewrite Hs, _dispatch_to_available_free by eauto. done.
  - left. by rewrite Hs, _dispatch_to_available_dangling.
Qed.

Lemma free_is_Some w e : free w e → is_Some (employees w !! e).
Proof. intros (x & -> & _)%free_lookup. eauto. Qed.

Lemma unranked_new_Call w rank :
  refs_allocated w → unranked_untouched w →
  refs_allocated (new_Call rank w).2 ∧ unranked_untouched (new_Call rank w).2.
Proof.
  intros [Hs Hq] Hu. unfold new_Call, set_calls; cbn [snd]. split; [split|].
  - intros e c H. cbn [calls]. destruct (Hs e c H) as [x Hx].
    exists x. by apply lookup_app_l_Some.
  - intros q H. cbn [calls]. destruct (Hq q H) as [x Hx].
    exists x. by apply lookup_app_l_Some.
  - intros call c v Hc Hr. cbn [calls] in Hc.
    apply lookup_app_Some in Hc as [Hc|[Hlen Hc]]; [exact (Hu call c v Hc Hr)|].
    apply list_lookup_singleton_Some in Hc as [Hz <-]. simpl in Hr. subst rank.
    split; [done|].
    assert (call = length (calls w)) as -> by lia. split.
    + intros e H. apply Hs, lookup_lt_is_Some in H. lia.
    + intros H. apply Hq, lookup_lt_is_Some in H. lia.
Qed.

Lemma unranked_bound w e call c r :
  calls w !! call = Some c → Call.rank c = IsRank r → free w e →
  refs_allocated w → unranked_untouched w →
  refs_allocated (bound e call w) ∧ unranked_untouched (bound e call w).
Proof.
  intros Hc Hr He [Hs Hq] Hu. pose proof (free_is_Some _ _ He) as Hall.
  split; [split|].
  - intros e' c' H. unfold bound; cbn [calls]. apply is_Some_lookup_alter.
    destruct (decide (e' = e)) as [->|Hne].
    + rewrite bound_slot in H by done. simplify_eq. eauto.
    + rewrite bound_slot_ne in H by done. eauto.
  - intros q H. unfold bound; cbn [calls]. apply is_Some_lookup_alter. by apply Hq.
  - intros call' c' v Hc' Hr'. unfold bound in Hc'; cbn [calls] in Hc'.
    destruct (decide (call = call')) as [<-|Hne].
    + rewrite list_lookup_alter_eq, Hc in Hc'. simplify_eq/=. congruence.
    + rewrite list_lookup_alter_ne in Hc' by done.
      destruct (Hu _ _ _ Hc' Hr') as (Hinit & Hfree & Hnq).
      split; [done|]. split; [|done].
      intros e'. destruct (decide (e' = e)) as [->|Hne'].
      * rewrite bound_slot by done. congruence.
      * rewrite bound_slot_ne by done. apply Hfree.
Qed.

Lemma unranked_queued w call c r :
  calls w !! call = Some c → Call.rank c = IsRank r →
  refs_allocated w → unranked_untouched w →
  refs_allocated (queued call w) ∧ unranked_untouched (queued call w).
Proof.
  intros Hc Hr [Hs Hq] Hu. split; [split|].
  - exact Hs.
  - intros q. unfold queued, set_center; cbn [center queued_calls calls].
    intros [H|H]%elem_of_app; [by apply Hq|].
    apply list_elem_of_singleton in H as ->. eauto.
  - intros call' c' v Hc' Hr'.
    destruct (Hu _ _ _ Hc' Hr') as (Hinit & Hfree & Hnq).
    split; [done|]. split; [exact Hfree|].
    unfold queued, set_center; cbn [center queued_calls].
    intros [H|H]%elem_of_app; [done|].
    apply list_elem_of_singleton in H as ->.
    change (calls w !! call = Some c') in Hc'. congruence.
Qed.

Lemma unranked_completed w self call :
  slot w self = Some (Some call) →
  refs_allocated w → unranked_untouched w →
  refs_allocated (completed call w) ∧ unranked_untouched (completed call w).
Proof.
  intros Hheld [Hs Hq] Hu. split; [split|].
  - intros e' c' H. unfold completed, set_calls; cbn [calls].
    apply is_Some_lookup_alter. by apply (Hs e').
  - intros q H. unfold completed, set_calls; cbn [calls].
    apply is_Some_lookup_alter. by apply Hq.
  - intros call' c' v Hc' Hr'. unfold completed, set_calls in Hc'; cbn [calls] in Hc'.
    destruct (decide (call = call')) as [<-|Hne].
    + rewrite list_lookup_alter_eq in Hc'.
      destruct (calls w !! call) as [c0|] eqn:Hc0; simplify_eq/=.
      destruct (Hu _ _ _ Hc0 Hr') as (_ & Hfree & _). by destruct (Hfree self).
    + rewrite list_lookup_alter_ne in Hc' by done. exact (Hu _ _ _ Hc' Hr').
Qed.

Lemma unranked_escalated w self call rank :
  refs_allocated w → unranked_untouched w →
  refs_allocated (escalated self call rank w) ∧
  unranked_untouched (escalated self call rank w).
Proof.
  intros [Hs Hq] Hu.
  assert (Hslot : ∀ e' c', slot (escalated self call rank w) e' = Some (Some c') →
                           slot w e' = Some (Some c')).
  { intros e' c'. destruct (decide (e' = self)) as [->|Hne].
    - unfold slot, escalated; cbn [employees]. rewrite list_lookup_alter_eq.
      by destruct (employees w !! self).
    - by rewrite escalated_slot_ne. }
  split; [split|].
  - intros e' c' H. unfold escalated; cbn [calls].
    apply is_Some_lookup_alter. eauto.
  - intros q H. unfold escalated; cbn [calls].
    apply is_Some_lookup_alter. by apply Hq.
  - intros call' c' v Hc' Hr'. unfold escalated in Hc'; cbn [calls] in Hc'.
    destruct (decide (call = call')) as [<-|Hne].
    + rewrite list_lookup_alter_eq in Hc'.
      destruct (calls w !! call) as [c0|]; simplify_eq/=.
    + rewrite list_lookup_alter_ne in Hc' by done.
      destruct (Hu _ _ _ Hc' Hr') as (Hinit & Hfree & Hnq).
      split; [done|]. split; [|done].
      intros e' H. by apply Hslot, Hfree in H.
Qed.

Lemma unranked_run_op o w :
  refs_allocated w → unranked_untouched w →
  refs_allocated (run_op o w) ∧ unranked_untouched (run_op o w).
Proof.
  intros Hr Hu. destruct o as [rank|call|self|self]; simpl.
  - by apply unranked_new_Call.
  - destruct (dispatch_call_cases w call)
      as [->|(c & r & Hc & Hrank & [(e & He & ->)| ->])]; [done|..].
    + by eapply unranked_bound.
    + by eapply unranked_queued.
  - destruct (complete_call_cases w self)
      as [->|[->|(e & call & He & Hheld & _ & ->)]]; [done..|].
    simpl. apply (unranked_completed _ self); [|done..].
    unfold slot. by rewrite He; simpl; f_equal.
  - destruct (escalate_call_world w self)
      as [->|(e & call & rank & _ & _ & _ & _ & ->)]; [done|].
    by apply unranked_escalated.
Qed.

Lemma unranked_run_ops os w :
  refs_allocated w → unranked_untouched w →
  refs_allocated (run_ops os w) ∧ unranked_untouched (run_ops os w).
Proof.
  revert w. induction os as [|o os IH]; intros w Hr Hu; simpl; [done|].
  destruct (unranked_run_op o w Hr Hu). by apply IH.
Qed.

Lemma initial_slot w e c : initial w → slot w e ≠ Some (Some c).
Proof.
  intros (_ & _ & Hidle).
  unfold slot. destruct (employees w !! e) as [x|] eqn:Hx; [|done].
  rewrite Forall_lookup in Hidle. simpl. by rewrite (Hidle _ _ Hx).
Qed.

Lemma initial_refs_allocated w : initial w → refs_allocated w.
Proof.
  intros Hinit. split.
  - intros e c H. by destruct (initial_slot w e c Hinit).
  - destruct Hinit as (_ & -> & _). intros q H. by apply elem_of_nil in H.
Qed.

(** X14: a call whose rank is not a member of [Rank] is never served.  After
    any sequence of operations on a newly built centre such a call is as
    [Call(rank)] left it, READY with no employee; no employee holds it and it
    is not queued. *)
Theorem X14_unranked_call_is_never_served w call c v :
  reachable w → calls w !! call = Some c → Call.rank c = NotRank v →
  c = Call.mk READY (NotRank v) None ∧
  (∀ e, slot w e ≠ Some (Some call)) ∧
  call ∉ queued_calls (center w).
Proof.
  intros (w0 & os & Hinit & ->) Hc Hr.
  assert (Hu0 : unranked_untouched w0).
  { intros ? ? ? H. destruct Hinit as (Hnil & _). by rewrite Hnil in H. }
  destruct (unranked_run_ops os w0 (initial_refs_allocated _ Hinit) Hu0) as [_ Hu].
  exact (Hu call c v Hc Hr).
Qed.

Lemma X14_witness :
  Call.__init__ (NotRank 7) = Call.mk READY (NotRank 7) None ∧
  (∀ e, slot (run_op (DispatchCall 0) unranked_call_arrives) e ≠ Some (Some 0)) ∧
  0 ∉ queued_calls (center (run_op (DispatchCall 0) unranked_call_arrives)).
Proof.
  refine (X14_unranked_call_is_never_served
            (run_op (DispatchCall 0) unranked_call_arrives) 0
            (Call.__init__ (NotRank 7)) 7 _ eq_refl eq_refl).
  exists one_operator, [NewCall (NotRank 7); DispatchCall 0].
  split; [|reflexivity]. repeat constructor.
Defined.

Lemma untaken_new_Call w rank : untaken_ready w → untaken_ready (new_Call rank w).2.
Proof.
  intros [Ha Hb]. unfold new_Call, set_calls; cbn [snd]. split.
  - intros e c H. cbn [calls]. destruct (Ha e c H) as (x & Hx & Hemp).
    exists x. split; [by apply lookup_app_l_Some|done].
  - intros c x Hc Hnone. cbn [calls] in Hc.
    apply lookup_app_Some in Hc as [Hc|[_ Hc]]; [by eapply Hb|].
    by apply list_lookup_singleton_Some in Hc as [_ <-].
Qed.

Lemma untaken_bound w e call :
  free w e → is_Some (calls w !! call) →
  untaken_ready w → untaken_ready (bound e call w).
Proof.
  intros He [c0 Hc0] [Ha Hb]. pose proof (free_is_Some _ _ He) as Hall.
  assert (Hcall : calls (bound e call w) !! call
                  = Some (Call.mk IN_PROGRESS (Call.rank c0) (Some e)))
    by (by apply bound_call).
  split.
  - intros e' c' H.
    assert (Hold : c' ≠ call → ∃ x, calls w !! c' = Some x ∧ is_Some (Call.employee x)).
    { intros Hne. apply (Ha e'). destruct (decide (e' = e)) as [->|Hne'].
      - rewrite bound_slot in H by done. congruence.
      - by rewrite bound_slot_ne in H. }
    destruct (decide (c' = call)) as [->|Hne]; [eauto|].
    destruct (Hold Hne) as (x & Hx & Hemp). exists x. split; [|done].
    unfold bound; cbn [calls]. by rewrite list_lookup_alter_ne.
  - intros c' x Hc' Hnone. destruct (decide (c' = call)) as [->|Hne].
    + rewrite Hcall in Hc'. by simplify_eq.
    + unfold bound in Hc'; cbn [calls] in Hc'.
      rewrite list_lookup_alter_ne in Hc' by done. by eapply Hb.
Qed.

Lemma untaken_completed w self call :
  slot w self = Some (Some call) →
  untaken_ready w → untaken_ready (completed call w).
Proof.
  intros Hheld [Ha Hb].
  assert (Hkeep : ∀ c' x', calls (completed call w) !! c' = Some x' →
            ∃ x, calls w !! c' = Some x ∧ Call.employee x' = Call.employee x ∧
                 (c' ≠ call → x' = x)).
  { intros c' x'. unfold completed, set_calls; cbn [calls].
    rewrite list_lookup_alter. case_decide as Heq.
    - subst. destruct (calls w !! c') as [x|]; [|done].
      intros [= <-]. exists x. by repeat split.
    - intros Hx. exists x'. by repeat split. }
  split.
  - intros e c' H. destruct (Ha e c' H) as (x & Hx & Hemp).
    unfold completed, set_calls; cbn [calls]. rewrite list_lookup_alter.
    case_decide; subst; rewrite Hx; eauto.
  - intros c' x' Hc' Hnone. destruct (Hkeep _ _ Hc') as (x & Hx & Hemp & Hsame).
    destruct (decide (c' = call)) as [->|Hne].
    + destruct (Ha _ _ Hheld) as (y & Hy & [? Hy']). congruence.
    + rewrite (Hsame Hne) in *. by eapply Hb.
Qed.

Lemma untaken_escalated w self call rank :
  untaken_ready w → untaken_ready (escalated self call rank w).
Proof.
  intros [Ha Hb].
  assert (Hslot : ∀ e' c', slot (escalated self call rank w) e' = Some (Some c') →
                           slot w e' = Some (Some c')).
  { intros e' c'. destruct (decide (e' = self)) as [->|Hne].
    - unfold slot, escalated; cbn [employees]. rewrite list_lookup_alter_eq.
      by destruct (employees w !! self).
    - by rewrite escalated_slot_ne. }
  split.
  - intros e c' H. destruct (Ha e c' (Hslot _ _ H)) as (x & Hx & Hemp).
    unfold escalated; cbn [calls]. rewrite list_lookup_alter.
    case_decide; subst; rewrite Hx; eauto.
  - intros c' x'. unfold escalated; cbn [calls]. rewrite list_lookup_alter.
    case_decide as Heq.
    + subst. destruct (calls w !! c') as [x|]; [|done]. by intros [= <-].
    + apply Hb.
Qed.

Lemma untaken_run_op o w : untaken_ready w → untaken_ready (run_op o w).
Proof.
  intros Hu. destruct o as [rank|call|self|self]; simpl.
  - by apply untaken_new_Call.
  - destruct (dispatch_call_cases w call)
      as [->|(c & r & Hc & Hrank & [(e & He & ->)| ->])]; [done| |done].
    apply untaken_bound; eauto.
  - destruct (complete_call_cases w self)
      as [->|[->|(e & call & He & Hheld & _ & ->)]]; [done..|].
    simpl. apply (untaken_completed _ self); [|done].
    unfold slot. by rewrite He; simpl; f_equal.
  - destruct (escalate_call_world w self)
      as [->|(e & call & rank & _ & _ & _ & _ & ->)]; [done|].
    by apply untaken_escalated.
Qed.

Lemma untaken_run_ops os w : untaken_ready w → untaken_ready (run_ops os w).
Proof.
  revert w. induction os as [|o os IH]; intros w Hu; simpl; [done|].
  by apply IH, untaken_run_op.
Qed.

Lemma untaken_initial w : initial w → untaken_ready w.
Proof.
  intros Hinit. split.
  - intros e c H. by destruct (initial_slot w e c Hinit).
  - destruct Hinit as (Hnil & _). intros c x. by rewrite Hnil.
Qed.

(** X15: a call leaves READY only by being taken.  After any sequence of
    operations on a newly built centre, a call whose [employee] is [None] is
    READY and no employee holds it; so a call that is IN_PROGRESS or COMPLETE
    always names the employee that took it. *)
Theorem X15_call_without_employee_is_ready w call c :
  reachable w → calls w !! call = Some c → Call.employee c = None →
  Call.state c = READY ∧ ∀ e, slot w e ≠ Some (Some call).
Proof.
  intros (w0 & os & Hinit & ->) Hc Hnone.
  destruct (untaken_run_ops os w0 (untaken_initial _ Hinit)) as [Ha Hb].
  split; [by eapply Hb|].
  intros e H. destruct (Ha e call H) as (x & Hx & [? Hemp]). congruence.
Qed.

Lemma X15_witness :
  Call.state (Call.mk READY (IsRank OPERATOR) None) = READY ∧
  ∀ e, slot waiting_call_and_free_operator e ≠ Some (Some 2).
Proof.
  refine (X15_call_without_employee_is_ready waiting_call_and_free_operator 2
            (Call.mk READY (IsRank OPERATOR) None) _ eq_refl eq_refl).
  apply reachable_run_ops, initial_two_operators.
Defined.

(** ** Escalating and dispatching again *)

(** X16: escalation followed by a new dispatch can hand the call straight
    back.  When an Operator escalates its call and the call is dispatched
    again while every employee tried before that Operator for rank SUPERVISOR
    is busy, the call returns to the same Operator: every employee object is
    as before the escalation, and the call is IN_PROGRESS with that Operator
    at rank SUPERVISOR. *)
Theorem X16_escalated_call_returns_to_its_operator w self e call c pre post :
  employees w !! self = Some e → Employee.class e = Operator →
  Employee.call e = Some call → calls w !! call = Some c →
  search_order SUPERVISOR (center w) = pre ++ self :: post →
  Forall (λ e', e' ≠ self ∧ busy w e') pre →
  ∃ w', (escalate_call self;; dispatch_call call) w = (Returned tt, w') ∧
    employees w' = employees w ∧
    queued_calls (center w') = queued_calls (center w) ∧
    calls w' !! call = Some (Call.mk IN_PROGRESS (IsRank SUPERVISOR) (Some self)).
Proof.
  intros He Hk Hheld Hc Hs Hpre.
  set (w1 := escalated self call SUPERVISOR w).
  assert (Hesc : escalate_call self w = (Returned tt, w1)).
  { apply (escalate_call_held _ _ e); eauto. by rewrite Hk. }
  assert (Hc1 : calls w1 !! call
                = Some (Call.mk READY (IsRank SUPERVISOR) (Call.employee c)))
    by (by apply escalated_call).
  assert (Hfree : free w1 self) by (apply escalated_slot; eauto).
  assert (Hbusy : Forall (busy w1) pre).
  { eapply Forall_impl; [exact Hpre|]. intros e' [Hne [c' Hb]].
    exists c'. unfold w1. by rewrite escalated_slot_ne. }
  exists (bound self call w1).
  rewrite (bind_returned _ _ _ _ _ Hesc).
  rewrite (dispatch_call_search w1 call _ SUPERVISOR Hc1 eq_refl).
  change (center w1) with (center w). rewrite Hs.
  rewrite _dispatch_to_available_free by eauto.
  split; [done|]. split; [|split; [done|]].
  - unfold bound, w1, escalated; cbn [employees].
    rewrite list_alter_alter_eq. apply (alter_fixpoint _ _ _ e); [done|].
    destruct e; simpl in *. by rewrite Hheld.
  - by rewrite (bound_call _ _ _ _ Hc1).
Qed.

Lemma X16_witness :
  ∃ w', (escalate_call 0;; dispatch_call 0) operator_on_call = (Returned tt, w') ∧
    employees w' = employees operator_on_call ∧
    queued_calls (center w') = queued_calls (center operator_on_call) ∧
    calls w' !! 0 = Some (Call.mk IN_PROGRESS (IsRank SUPERVISOR) (Some 0)).
Proof.
  refine (X16_escalated_call_returns_to_its_operator operator_on_call 0
            (Employee.mk 1 "Ada" OPERATOR (Some 0) Operator) 0
            (Call.mk IN_PROGRESS (IsRank OPERATOR) (Some 0)) [] []
            eq_refl eq_refl eq_refl eq_refl eq_refl _).
  constructor.
Defined.
